(** * thoughts: the hot-swap synchronisation engine, embedded and verified

    A shallow embedding of the Go sources [document.go], [site.go] (the final
    variant, with the [repo] type) and [ghclient.go] (the caching decorator),
    followed by the theorems that settle the specification's claims.

    Conventions.
    - A Go [string] and a Go [[]byte] are both byte sequences; they are
      modelled by [string].  Where the program tests a slice against [nil]
      (the render cache) the slice is an [option string], [None] being [nil].
    - A Go [error] is a value of [error]; [fmt.Errorf("msg: %w", err)] is
      [Wrapf "msg" err].  A pair [(T, error)] is a [result T].
    - Code that mutates an object through a pointer returns the new value of
      the object next to its result (explicit state passing).
    - The file system separator is the Unix one. *)

From Stdlib Require Import Ascii String.
From stdpp Require Import base option list strings gmap sorting.

Set Default Proof Using "Type".

(** ** Go preliminaries *)

Inductive error : Type :=
| New (msg : string)
| Wrapf (msg : string) (cause : error).

Inductive result (A : Type) : Type :=
| Ok (a : A)
| Fail (err : error).
Arguments Ok {A} a.
Arguments Fail {A} err.

Module strings.

(** [len(s) >= len(suffix) && s[len(s)-len(suffix):] == suffix] *)
Definition HasSuffix (s suffix : string) : bool :=
  (String.length suffix <=? String.length s)%nat &&
  String.eqb
    (String.substring (String.length s - String.length suffix)
                      (String.length suffix) s)
    suffix.

(** [if HasSuffix(s, suffix) { return s[:len(s)-len(suffix)] }; return s] *)
Definition TrimSuffix (s suffix : string) : string :=
  if HasSuffix s suffix
  then String.substring 0 (String.length s - String.length suffix) s
  else s.

Definition TrimPrefix (s pre : string) : string :=
  if String.prefix pre s
  then String.substring (String.length pre)
                        (String.length s - String.length pre) s
  else s.

(** [Split] for a separator of one byte, the only use the program makes of
    it: the pieces between the occurrences of [sep], at least one piece. *)
Fixpoint Split (s : string) (sep : ascii) : list string :=
  match s with
  | EmptyString => [EmptyString]
  | String c s' =>
      if Ascii.eqb c sep then EmptyString :: Split s' sep
      else match Split s' sep with
           | piece :: rest => String c piece :: rest
           | [] => [String c EmptyString]
           end
  end.

Fixpoint Join (elems : list string) (sep : string) : string :=
  match elems with
  | [] => EmptyString
  | [e] => e
  | e :: rest => e +:+ sep +:+ Join rest sep
  end.

End strings.

(** ** A backtracking matcher for the regular expressions of the program

    Go's [regexp] picks, at the leftmost position where a match exists, the
    match a backtracking search finds first (greedy operators try the longer
    alternative first, lazy ones the shorter).  The fragment below has what
    [linkRE] uses: literal bytes, negated one-byte classes, [+] and [+?] on a
    class, concatenation and capturing groups. *)

Module regexp.

Inductive class : Type :=
| Only (c : ascii)       (* the byte [c] *)
| Except (c : ascii).    (* [[^c]] *)

Inductive re : Type :=
| Chr (k : class)
| Rep1 (k : class) (lazy : bool)    (* [k+] and [k+?] *)
| Seq (a b : re)
| Cap (a : re).                     (* [( a )] *)

Definition accepts (k : class) (c : ascii) : bool :=
  match k with
  | Only x => Ascii.eqb c x
  | Except x => negb (Ascii.eqb c x)
  end.

Definition orelse {R} (x : option R) (y : option R) : option R :=
  match x with Some r => Some r | None => y end.

(** One byte of [k] has been consumed; [s] is what follows. *)
Fixpoint more {R} (k : class) (lazy : bool) (s : string)
         (cont : string -> option R) : option R :=
  let again :=
    match s with
    | String c s' => if accepts k c then more k lazy s' cont else None
    | EmptyString => None
    end in
  if lazy then orelse (cont s) again else orelse again (cont s).

(** The text a sub-match consumed: what [s] has in front of [rest]. *)
Definition consumed (s rest : string) : string :=
  String.substring 0 (String.length s - String.length rest) s.

(** [run r s caps cont]: match [r] at the start of [s]; the continuation
    receives the rest of the input and the groups closed so far (in the
    order in which they close, which for [linkRE] is their number). *)
Fixpoint run {R} (r : re) (s : string) (caps : list string)
         (cont : string -> list string -> option R) : option R :=
  match r with
  | Chr k =>
      match s with
      | String c s' => if accepts k c then cont s' caps else None
      | EmptyString => None
      end
  | Rep1 k lazy =>
      match s with
      | String c s' =>
          if accepts k c then more k lazy s' (fun rest => cont rest caps)
          else None
      | EmptyString => None
      end
  | Seq a b => run a s caps (fun rest caps' => run b rest caps' cont)
  | Cap a =>
      run a s caps (fun rest caps' => cont rest (caps' ++ [consumed s rest]))
  end.

Definition match_at (r : re) (s : string) : option (string * list string) :=
  run r s [] (fun rest caps => Some (rest, caps)).

Fixpoint lit (s : string) : list re :=
  match s with
  | EmptyString => []
  | String c s' => Chr (Only c) :: lit s'
  end.

Fixpoint seq (rs : list re) (last : re) : re :=
  match rs with
  | [] => last
  | r :: rs' => Seq r (seq rs' last)
  end.

(** A replacement template: [$1$2] is [[Group 1; Group 2]]. *)
Inductive piece : Type :=
| Text (s : string)
| Group (n : nat).

Definition expand (tpl : list piece) (caps : list string) : string :=
  foldr (fun p acc =>
           match p with
           | Text t => t +:+ acc
           | Group n => default EmptyString (caps !! (n - 1)%nat) +:+ acc
           end) EmptyString tpl.

(** [ReplaceAllString]: scan from the left; where the expression matches,
    write the expanded template and go on after the match, otherwise copy
    one byte.  [skip] counts the bytes of a match still to be passed over. *)
Fixpoint replace_from (r : re) (tpl : list piece) (s : string) (skip : nat)
  : string :=
  match skip with
  | S n =>
      match s with
      | EmptyString => EmptyString
      | String _ s' => replace_from r tpl s' n
      end
  | O =>
      match s with
      | EmptyString =>
          match match_at r s with
          | Some (_, caps) => expand tpl caps
          | None => EmptyString
          end
      | String c s' =>
          match match_at r s with
          | Some (rest, caps) =>
              match (String.length s - String.length rest)%nat with
              | O => expand tpl caps +:+ String c (replace_from r tpl s' 0)
              | S n => expand tpl caps +:+ replace_from r tpl s' n
              end
          | None => String c (replace_from r tpl s' 0)
          end
      end
  end.

Definition ReplaceAllString (r : re) (src : string) (tpl : list piece)
  : string :=
  replace_from r tpl src 0.

End regexp.

(** ** document.go *)

Record document : Type := mkDocument {
  path : string;
  contents : string;
  cache : option string   (* [nil] until the first render *)
}.

(** [regexp.MustCompile(`(\[[^]]+\]\(\.\/[^)]+?)\.md(\))`)] *)
Definition linkRE : regexp.re :=
  regexp.Seq
    (regexp.Cap
       (regexp.seq
          [regexp.Chr (regexp.Only "[");
           regexp.Rep1 (regexp.Except "]") false;
           regexp.Chr (regexp.Only "]");
           regexp.Chr (regexp.Only "(");
           regexp.Chr (regexp.Only ".");
           regexp.Chr (regexp.Only "/")]
          (regexp.Rep1 (regexp.Except ")") true)))
    (regexp.seq (regexp.lit ".md") (regexp.Cap (regexp.Chr (regexp.Only ")")))).

(** [newDocument] never fails: its error result is always [nil]. *)
Definition newDocument (path : string) (contents : string) : result document :=
  let contents :=
    regexp.ReplaceAllString linkRE contents [regexp.Group 1; regexp.Group 2] in
  Ok {| path := path; contents := contents; cache := None |}.

Section Render.

(** The markdown library (parse with the chosen extensions, render to HTML
    with the chosen flags) is a dependency of the program, not part of it:
    it is a pure function from bytes to a byte slice, which may be [nil]. *)
Variable markdown_Render : string -> option string.

(** [Render] with the number of runs of the markdown transform threaded
    through: the result is [(output, document after the call, runs)]. *)
Definition Render (d : document) (runs : nat)
  : option string * document * nat :=
  match cache d with
  | Some c => (Some c, d, runs)
  | None =>
      let out := markdown_Render (contents d) in
      (out, {| path := path d; contents := contents d; cache := out |}, S runs)
  end.

End Render.

(** ** io/fs: file trees and [fs.WalkDir]

    An [fs.FS] is modelled by the tree a walk of it meets: every entry has
    a name; a file carries the outcome of opening and reading it, a
    directory the outcome of [ReadDir] (entries in the order [ReadDir]
    returns them).  The root of an [FS] is the entry walked under the name
    ["."]. *)

#[warnings="-register-all"]
Inductive entry : Type :=
| File (name : string) (data : result string)
| Dir (name : string) (listing : result (list entry)).

Definition FS : Type := entry.

Definition Name (d : entry) : string :=
  match d with File n _ => n | Dir n _ => n end.

Definition IsDir (d : entry) : bool :=
  match d with File _ _ => false | Dir _ _ => true end.

(** [fs.ReadFile(fsys, path)] at the path of the walked entry [d]. *)
Definition ReadFile (d : entry) : result string :=
  match d with
  | File _ data => data
  | Dir _ _ => Fail (New "is a directory")
  end.

(** [path.Join(name, d1.Name())] as [walkDir] uses it. *)
Definition path_Join (name child : string) : string :=
  if String.eqb name "." then child else name +:+ "/" +:+ child.

Section WalkDir.

(** The state the callback closes over. *)
Context {St : Type}.
Variable walkDirFn : string -> entry -> option error -> St -> option error * St.

(** [fs.walkDir].  No callback of the program returns [fs.SkipDir] or
    [fs.SkipAll], so a non-nil error always ends the walk. *)
Fixpoint walkDir (name : string) (d : entry) (st : St) {struct d}
  : option error * St :=
  match walkDirFn name d None st with
  | (Some err, st1) => (Some err, st1)
  | (None, st1) =>
      match d with
      | File _ _ => (None, st1)
      | Dir _ (Fail err) =>
          (* second call, to report the ReadDir error; the listing is empty *)
          walkDirFn name d (Some err) st1
      | Dir _ (Ok dirs) =>
          (fix range (dirs : list entry) (st : St) {struct dirs}
             : option error * St :=
             match dirs with
             | [] => (None, st)
             | d1 :: dirs' =>
                 match walkDir (path_Join name (Name d1)) d1 st with
                 | (Some err, st') => (Some err, st')
                 | (None, st') => range dirs' st'
                 end
             end) dirs st1
      end
  end.

Definition WalkDir (fsys : FS) (root : string) (st : St) : option error * St :=
  walkDir root fsys st.

End WalkDir.

(** ** site.go: [fileProvider] and [repo] *)

(** The interface [fileProvider].  [W] is the state of whatever the provider
    talks to (network, disk); [Contents] returns the tree together with the
    release function, which acts on that state. *)
Record fileProvider (W : Type) : Type := mkFileProvider {
  LastHash : W -> result string * W;
  Contents : W -> result (FS * (W -> W)) * W
}.
Arguments LastHash {W} _ _.
Arguments Contents {W} _ _.

(** The fields of [repo] other than [fp]; the provider is shared by both
    slots and passed to [Sync] explicitly. *)
Record repo : Type := mkRepo {
  hash : string;
  index : option document;
  documents : gmap string document
}.

Definition newRepo : repo :=
  {| hash := ""; index := None; documents := ∅ |}.

Definition Index (r : repo) : option document := index r.

Definition Document (r : repo) (path : string) : option document :=
  documents r !! path.

Definition Separator : ascii := "/".

(** The closure passed to [fs.WalkDir] by [extractDocuments]. *)
Definition extract_fn (path : string) (d : entry) (err : option error)
           (documents : list document) : option error * list document :=
  match err with
  | Some err => (Some (Wrapf "failed to walk dir" err), documents)
  | None =>
      if IsDir d then (None, documents)
      else if negb (String.eqb (Name d) "README.md")
              && negb (strings.HasSuffix (Name d) ".md")
      then (None, documents)
      else
        match ReadFile d with
        | Fail err => (Some (Wrapf "failed to read file" err), documents)
        | Ok contents =>
            let p := strings.Split path Separator in
            let p := drop 1 p in
            let path := strings.Join p (String Separator EmptyString) in
            match newDocument path contents with
            | Fail err =>
                (Some (Wrapf "failed to create document" err), documents)
            | Ok document => (None, documents ++ [document])
            end
        end
  end.

Definition extractDocuments (repo : FS) : result (list document) :=
  match WalkDir extract_fn repo "." [] with
  | (Some err, _) => Fail (Wrapf "failed to walk fs" err)
  | (None, documents) => Ok documents
  end.

(** One iteration of the loop of [indexDocuments]. *)
Definition index_step (r : repo) (d : document) : repo :=
  if String.eqb (path d) "README.md"
  then {| hash := hash r; index := Some d; documents := documents r |}
  else
    let p := strings.TrimSuffix (path d) ".md" in
    {| hash := hash r; index := index r; documents := <[p := d]> (documents r) |}.

Definition indexDocuments (r : repo) (docs : list document)
  : option error * repo :=
  let r := foldl index_step r docs in
  match index r with
  | None => (Some (New "no index document found"), r)
  | Some _ => (None, r)
  end.

Section Sync.

Context {W : Type}.
Variable fp : fileProvider W.

(** [(r *repo).Sync]: the error, the slot after the call, the provider's
    state after the call.  The deferred [cleanup] runs on every path after
    [Contents] succeeded. *)
Definition Sync (r : repo) (w : W) : option error * repo * W :=
  match LastHash fp w with
  | (Fail err, w) => (Some (Wrapf "failed to get last hash" err), r, w)
  | (Ok hash', w) =>
      if String.eqb hash' (hash r) then (None, r, w)
      else
        match Contents fp w with
        | (Fail err, w) => (Some (Wrapf "failed to get contents" err), r, w)
        | (Ok (repoFS, cleanup), w) =>
            match extractDocuments repoFS with
            | Fail err =>
                (Some (Wrapf "failed to extract documents" err), r, cleanup w)
            | Ok docs =>
                let '(err, r) := indexDocuments r docs in
                (err, r, cleanup w)
            end
        end
  end.

(** *** [site] *)

(** [activeRepo] points at one of the two slots. *)
Inductive slot : Type := versionA_ptr | versionB_ptr.

Record site : Type := mkSite {
  activeRepo : slot;
  versionA : repo;
  versionB : repo
}.

(** What [newSite] builds (logger, title and template left out). *)
Definition newSite : site :=
  {| activeRepo := versionA_ptr; versionA := newRepo; versionB := newRepo |}.

(** [*s.activeRepo] *)
Definition active (s : site) : repo :=
  match activeRepo s with
  | versionA_ptr => versionA s
  | versionB_ptr => versionB s
  end.

(** The body of [case <-ticker.C:] in [syncRepos]: [Some err] is the
    [return fmt.Errorf(...)], [None] is falling out of the [switch]. *)
Definition tick (s : site) (w : W) : option error * site * W :=
  match activeRepo s with
  | versionA_ptr =>
      match Sync (versionB s) w with
      | (Some err, rB, w) =>
          (Some (Wrapf "failed to sync repo B" err),
           {| activeRepo := activeRepo s; versionA := versionA s; versionB := rB |},
           w)
      | (None, rB, w) =>
          (None,
           {| activeRepo := versionB_ptr; versionA := versionA s; versionB := rB |},
           w)
      end
  | versionB_ptr =>
      match Sync (versionA s) w with
      | (Some err, rA, w) =>
          (Some (Wrapf "failed to sync repo A" err),
           {| activeRepo := activeRepo s; versionA := rA; versionB := versionB s |},
           w)
      | (None, rA, w) =>
          (None,
           {| activeRepo := versionA_ptr; versionA := rA; versionB := versionB s |},
           w)
      end
  end.

(** What the [select] of [syncRepos] receives, in order. *)
Inductive select_case : Type :=
| ctx_Done
| ticker_C.

(** How a run of the loop over a finite sequence of events ends: it
    returned, or it is back in [select] with no event left. *)
Inductive outcome : Type :=
| Returned (err : option error)
| Selecting.

Fixpoint syncRepos (events : list select_case) (s : site) (w : W)
  : outcome * site * W :=
  match events with
  | [] => (Selecting, s, w)
  | ctx_Done :: _ => (Returned None, s, w)
  | ticker_C :: events =>
      match tick s w with
      | (Some err, s, w) => (Returned (Some err), s, w)
      | (None, s, w) => syncRepos events s w
      end
  end.

(** The first goroutine of [Serve]: it runs [syncRepos], logs its error and
    always returns [nil] to the [errgroup].  The result is what the
    goroutine returned (if it did), the lines it logged, and the state. *)
Definition Serve_syncRepos (events : list select_case) (s : site) (w : W)
  : outcome * list (string * error) * site * W :=
  match syncRepos events s w with
  | (Returned (Some err), s, w) =>
      (Returned None, [("failed to sync repos", err)], s, w)
  | (Returned None, s, w) => (Returned None, [], s, w)
  | (Selecting, s, w) => (Selecting, [], s, w)
  end.

(** The start of [Serve]: the active slot is synced before anything else;
    an error there is returned and nothing is started. *)
Definition Serve_start (s : site) (w : W) : option error * site * W :=
  match Sync (active s) w with
  | (Some err, r, w) =>
      (Some (Wrapf "failed to sync repo" err),
       match activeRepo s with
       | versionA_ptr =>
           {| activeRepo := activeRepo s; versionA := r; versionB := versionB s |}
       | versionB_ptr =>
           {| activeRepo := activeRepo s; versionA := versionA s; versionB := r |}
       end, w)
  | (None, r, w) =>
      (None,
       match activeRepo s with
       | versionA_ptr =>
           {| activeRepo := activeRepo s; versionA := r; versionB := versionB s |}
       | versionB_ptr =>
           {| activeRepo := activeRepo s; versionA := versionA s; versionB := r |}
       end, w)
  end.

(** [ServeHTTP] up to rendering: the document a request path resolves to
    in the active slot ([None]: the 404 answer, or no index document). *)
Definition resolve (s : site) (url_path : string) : option document :=
  if String.eqb url_path "/" then Index (active s)
  else Document (active s) (strings.TrimPrefix url_path "/").

End Sync.

(** The slot [tick] syncs: the one [activeRepo] does not point at. *)
Definition inactive (s : site) : repo :=
  match activeRepo s with
  | versionA_ptr => versionB s
  | versionB_ptr => versionA s
  end.

Definition flipped (p : slot) : slot :=
  match p with
  | versionA_ptr => versionB_ptr
  | versionB_ptr => versionA_ptr
  end.

(** ** ghclient.go: the caching decorator

    The disk is a finite map from cleaned paths to nodes.  Only the failures
    the shape of the disk forces are modelled (a file where a directory is
    needed, a directory where a file is needed, a missing parent). *)

Module os.

Inductive node : Type :=
| DirNode
| FileNode (data : string).

Definition ENOTDIR : error := New "not a directory".
Definition EISDIR : error := New "is a directory".
Definition ENOENT : error := New "no such file or directory".

Definition Stat (d : gmap string node) (name : string) : result node :=
  match d !! name with
  | Some n => Ok n
  | None => Fail ENOENT
  end.

End os.

Module filepath.

Definition sep : string := "/".

(** [filepath.Join(a, b)] for a cleaned rooted [a] (what [os.Getwd] returns,
    or a [Join] of such a path) and a path [b] as [fs.WalkDir] produces them
    (["."], or names separated by slashes).  The result is cleaned: ["."]
    and an empty element add nothing, and behind the root ["/"], the one
    cleaned path that ends in a separator, the separator is not doubled. *)
Definition Join (a b : string) : string :=
  if String.eqb b "." || String.eqb b "" then a
  else strings.TrimSuffix a sep +:+ sep +:+ b.

(** [filepath.Dir]: all but the last element. *)
Definition Dir (p : string) : string :=
  match strings.Join (removelast (strings.Split p "/")) sep with
  | EmptyString => if String.prefix sep p then sep else "."
  | dir => dir
  end.

Definition Base (p : string) : string :=
  List.last (strings.Split p "/") EmptyString.

End filepath.

Module osfs.

Import os.

(** [os.MkdirAll] on the path whose elements, last first, are [rsegs]:
    nothing to do for a directory, an error for a file, otherwise the
    parent first and then [Mkdir]. *)
Fixpoint MkdirAll_rev (rsegs : list string) (d : gmap string node)
  : option error * gmap string node :=
  let path := strings.Join (rev rsegs) filepath.sep in
  match d !! path with
  | Some DirNode => (None, d)
  | Some (FileNode _) => (Some ENOTDIR, d)
  | None =>
      match rsegs with
      | [] => (Some ENOENT, d)
      | _ :: parent =>
          let '(err, d) :=
            match strings.Join (rev parent) filepath.sep with
            | EmptyString => (None, d)
            | _ => MkdirAll_rev parent d
            end in
          match err with
          | Some err => (Some err, d)
          | None => (None, <[path := DirNode]> d)
          end
      end
  end.

Definition MkdirAll (d : gmap string node) (path : string)
  : option error * gmap string node :=
  MkdirAll_rev (rev (strings.Split path "/")) d.

(** [os.Create]: the file is created or truncated. *)
Definition Create (d : gmap string node) (path : string)
  : option error * gmap string node :=
  match d !! path with
  | Some DirNode => (Some EISDIR, d)
  | _ =>
      match d !! filepath.Dir path with
      | Some DirNode => (None, <[path := FileNode ""]> d)
      | Some (FileNode _) => (Some ENOTDIR, d)
      | None => (Some ENOENT, d)
      end
  end.

(** [io.Copy(dstFile, srcFile)] into the file just created at [path]. *)
Definition Copy (d : gmap string node) (path : string) (data : string)
  : gmap string node :=
  <[path := FileNode data]> d.

(** The tree seen through [os.DirFS] at the path [p] of the disk, to the
    depth [fuel]; directory listings are sorted by name. *)
Fixpoint tree_at (fuel : nat) (d : gmap string node) (name p : string)
  : entry :=
  match d !! p with
  | None => Dir name (Fail ENOENT)
  | Some (FileNode data) => File name (Ok data)
  | Some DirNode =>
      match fuel with
      | O => Dir name (Ok [])
      | S fuel =>
          let below :=
            filter (fun k => filepath.Dir k = p ∧ k ≠ p) (map fst (map_to_list d)) in
          Dir name
              (Ok (map (fun k => tree_at fuel d (filepath.Base k) k)
                       (merge_sort String.le below)))
      end
  end.

(** [fs.Sub(os.DirFS(root), dir)], read at the time of the call. *)
Definition Sub_DirFS (d : gmap string node) (root dir : string) : FS :=
  tree_at (size d) d "." (filepath.Join root dir).

End osfs.

Definition cacheDir : string := "cache".

Record cachedGitHubClient : Type := mkCached {
  destRoot : string
}.

(** [newCachedGitHubClient] in the working directory [wd]. *)
Definition newCachedGitHubClient (wd : string) : cachedGitHubClient :=
  {| destRoot := filepath.Join wd cacheDir |}.

Section Cached.

(** The state of the wrapped [githubClient] (the network) and the client. *)
Context {W : Type}.
Variable client : fileProvider W.
Variable c : cachedGitHubClient.

Definition cacheExists (d : gmap string os.node) : option FS :=
  match os.Stat d (destRoot c) with
  | Fail _ => None
  | Ok _ =>
      (* [filepath.Join(c.destRoot, "..")] is the parent of [destRoot];
         [fs.Sub] does not fail on the name ["cache"] *)
      let root := filepath.Dir (destRoot c) in
      Some (osfs.Sub_DirFS d root cacheDir)
  end.

Definition cached_LastHash (w : gmap string os.node * W)
  : result string * (gmap string os.node * W) :=
  match cacheExists (fst w) with
  | Some _ => (Ok "cached-hash", w)
  | None =>
      match LastHash client (snd w) with
      | (Fail err, n) => (Fail err, (fst w, n))
      | (Ok hash, n) => (Ok hash, (fst w, n))
      end
  end.

(** The closure passed to [fs.WalkDir] by [Contents]. *)
Definition persist_fn (path : string) (d : entry) (err : option error)
           (disk : gmap string os.node) : option error * gmap string os.node :=
  match err with
  | Some err => (Some err, disk)
  | None =>
      let destPath := filepath.Join (destRoot c) path in
      if IsDir d then
        match osfs.MkdirAll disk destPath with
        | (Some err, disk) => (Some (Wrapf "failed to create directory" err), disk)
        | (None, disk) => (None, disk)
        end
      else
        match osfs.MkdirAll disk (filepath.Dir destPath) with
        | (Some err, disk) =>
            (Some (Wrapf "failed to create parent directory" err), disk)
        | (None, disk) =>
            match ReadFile d with   (* [ghFS.Open(path)] *)
            | Fail err => (Some (Wrapf "failed to open source file" err), disk)
            | Ok data =>
                match osfs.Create disk destPath with
                | (Some err, disk) =>
                    (Some (Wrapf "failed to create destination file" err), disk)
                | (None, disk) => (None, osfs.Copy disk destPath data)
                end
            end
        end
  end.

Definition cached_Contents (w : gmap string os.node * W)
  : result (FS * (gmap string os.node * W -> gmap string os.node * W))
    * (gmap string os.node * W) :=
  match cacheExists (fst w) with
  | Some ghFS => (Ok (ghFS, fun w => w), w)
  | None =>
      match Contents client (snd w) with
      | (Fail err, n) => (Fail err, (fst w, n))
      | (Ok (ghFS, cleanup), n) =>
          match WalkDir persist_fn ghFS "." (fst w) with
          | (Some err, disk) => (Fail err, (disk, n))
          | (None, disk) =>
              (Ok (ghFS, fun w => (fst w, cleanup (snd w))), (disk, n))
          end
      end
  end.

Definition cached : fileProvider (gmap string os.node * W) :=
  {| LastHash := cached_LastHash; Contents := cached_Contents |}.

End Cached.

(** ** A scripted content source

    A stand-in for the network, to run the engine on concrete inputs: it
    answers from two scripts and counts the calls and the releases. *)

Record script : Type := mkScript {
  hashes : list (result string);
  pulls : list (result FS);
  LastHash_calls : nat;
  Contents_calls : nat;
  releases : nat
}.

Definition timeout : error := New "context deadline exceeded".

Definition scripted : fileProvider script :=
  {| LastHash w :=
       (match hashes w with h :: _ => h | [] => Fail timeout end,
        {| hashes := tl (hashes w); pulls := pulls w;
           LastHash_calls := S (LastHash_calls w);
           Contents_calls := Contents_calls w; releases := releases w |});
     Contents w :=
       (match pulls w with
        | Ok t :: _ =>
            Ok (t, fun w => {| hashes := hashes w; pulls := pulls w;
                               LastHash_calls := LastHash_calls w;
                               Contents_calls := Contents_calls w;
                               releases := S (releases w) |})
        | Fail err :: _ => Fail err
        | [] => Fail timeout
        end,
        {| hashes := hashes w; pulls := tl (pulls w);
           LastHash_calls := LastHash_calls w;
           Contents_calls := S (Contents_calls w); releases := releases w |}) |}.

Definition play (hs : list (result string)) (ts : list (result FS)) : script :=
  {| hashes := hs; pulls := ts;
     LastHash_calls := 0; Contents_calls := 0; releases := 0 |}.

(** ** Reference definitions the theorems compare the code with *)

(** Every entry of a tree with its path, in the order of the walk. *)
Fixpoint entries (name : string) (d : entry) {struct d} : list (string * entry) :=
  (name, d) ::
  match d with
  | Dir _ (Ok dirs) =>
      (fix below (dirs : list entry) : list (string * entry) :=
         match dirs with
         | [] => []
         | d1 :: dirs' => entries (path_Join name (Name d1)) d1 ++ below dirs'
         end) dirs
  | _ => []
  end.

(** Every directory of the tree can be listed. *)
Fixpoint listable (d : entry) : bool :=
  match d with
  | File _ _ => true
  | Dir _ (Fail _) => false
  | Dir _ (Ok dirs) =>
      (fix all (dirs : list entry) : bool :=
         match dirs with
         | [] => true
         | d1 :: dirs' => listable d1 && all dirs'
         end) dirs
  end.

(** A callback applied to a list of entries in order, up to its first
    error. *)
Fixpoint visit {St : Type}
         (fn : string -> entry -> option error -> St -> option error * St)
         (l : list (string * entry)) (st : St) : option error * St :=
  match l with
  | [] => (None, st)
  | (p, d) :: l' =>
      match fn p d None st with
      | (Some err, st') => (Some err, st')
      | (None, st') => visit fn l' st'
      end
  end.

Definition is_markdown (pe : string * entry) : bool :=
  negb (IsDir (snd pe)) && strings.HasSuffix (Name (snd pe)) ".md".

(** A readable tree: its directories can be listed and its markdown files
    can be read. *)
Definition readable (t : FS) : bool :=
  listable t &&
  forallb (fun pe => match ReadFile (snd pe) with Ok _ => true | Fail _ => false end)
          (List.filter is_markdown (entries "." t)).

(** The path with its first segment removed. *)
Definition without_first_segment (p : string) : string :=
  strings.Join (drop 1 (strings.Split p "/")) "/".

(** The Document the specification describes for a markdown file. *)
Definition document_of (pe : string * entry) : document :=
  {| path := without_first_segment (fst pe);
     contents :=
       regexp.ReplaceAllString linkRE
         (match ReadFile (snd pe) with Ok data => data | Fail _ => "" end)
         [regexp.Group 1; regexp.Group 2];
     cache := None |}.

Definition spec_documents (t : FS) : list document :=
  map document_of (List.filter is_markdown (entries "." t)).

(** The ways through [Sync]: it returns before the pull with the slot as
    it was, or it pulls, extracts and hands over to [indexDocuments]. *)
Inductive Sync_path {W : Type} (fp : fileProvider W)
          (r : repo) (w : W) (err : option error) (r' : repo) (w' : W) : Prop :=
| hash_failed e :
    LastHash fp w = (Fail e, w') ->
    err = Some (Wrapf "failed to get last hash" e) -> r' = r ->
    Sync_path fp r w err r' w'
| hash_equal h :
    LastHash fp w = (Ok h, w') -> h = hash r -> err = None -> r' = r ->
    Sync_path fp r w err r' w'
| pull_failed h w1 e :
    LastHash fp w = (Ok h, w1) -> h <> hash r ->
    Contents fp w1 = (Fail e, w') ->
    err = Some (Wrapf "failed to get contents" e) -> r' = r ->
    Sync_path fp r w err r' w'
| extract_failed h w1 t cleanup w2 e :
    LastHash fp w = (Ok h, w1) -> h <> hash r ->
    Contents fp w1 = (Ok (t, cleanup), w2) ->
    extractDocuments t = Fail e -> w' = cleanup w2 ->
    err = Some (Wrapf "failed to extract documents" e) -> r' = r ->
    Sync_path fp r w err r' w'
| indexed h w1 t cleanup w2 docs :
    LastHash fp w = (Ok h, w1) -> h <> hash r ->
    Contents fp w1 = (Ok (t, cleanup), w2) ->
    extractDocuments t = Ok docs -> w' = cleanup w2 ->
    indexDocuments r docs = (err, r') ->
    Sync_path fp r w err r' w'.

(** The byte [c] occurs in [s]. *)
Fixpoint occurs (c : ascii) (s : string) : bool :=
  match s with
  | EmptyString => false
  | String x s' => Ascii.eqb x c || occurs c s'
  end.

(** The replacement [newDocument] asks for: the match without its [".md"]. *)
Definition strip_links (src : string) : string :=
  regexp.ReplaceAllString linkRE src [regexp.Group 1; regexp.Group 2].

(** A link of the form [linkRE] looks for: [[text](./t.md)] with a
    non-empty text without [']'] and a non-empty [t] without [')']. *)
Definition link_form (text t : string) : Prop :=
  text <> "" /\ occurs "]" text = false /\ t <> "" /\ occurs ")" t = false.

Definition link_src (text t : string) : string :=
  "[" +:+ text +:+ "](./" +:+ t +:+ ".md)".

(** The link with the [".md"] of its target stripped. *)
Definition link_dst (text t : string) : string :=
  "[" +:+ text +:+ "](./" +:+ t +:+ ")".

Definition begins_with_link (s : string) : Prop :=
  exists text t post, link_form text t /\ s = link_src text t +:+ post.

(** A link of the form begins at a byte of [stretch], which [post]
    follows. *)
Definition begins_in (stretch post : string) : Prop :=
  exists a b,
    stretch = a +:+ b /\ b <> "" /\ begins_with_link (b +:+ post).

(** A link of the form begins at a byte of [pre] and ends behind the end of
    [pre], among the bytes of [rest]. *)
Definition reaches_into (pre rest : string) : Prop :=
  exists a b text t post,
    pre = a +:+ b /\ b <> "" /\ link_form text t /\
    b +:+ rest = link_src text t +:+ post /\
    String.length b < String.length (link_src text t).

(** The two conditions, decided with [linkRE] itself. *)
Fixpoint begins_inb (stretch post : string) : bool :=
  match stretch with
  | EmptyString => false
  | String c stretch' =>
      match regexp.match_at linkRE (stretch +:+ post) with
      | Some _ => true
      | None => begins_inb stretch' post
      end
  end.

Fixpoint reaches_intob (pre rest : string) : bool :=
  match pre with
  | EmptyString => false
  | String c pre' =>
      match regexp.match_at linkRE (pre +:+ rest) with
      | Some (post, _) =>
          (String.length post <? String.length rest) || reaches_intob pre' rest
      | None => reaches_intob pre' rest
      end
  end.

(** The last element of a list that satisfies [f]. *)
Definition last_such {A} (f : A -> bool) (l : list A) : option A :=
  List.find f (rev l).

Definition is_index (d : document) : bool := String.eqb (path d) "README.md".

Definition routed_at (p : string) (d : document) : bool :=
  negb (is_index d) && String.eqb (strings.TrimSuffix (path d) ".md") p.


(** ** Fixtures: concrete trees and a stand-in transform *)

(** A pull with an index document and one note, below the archive's wrapper
    directory. *)
Definition tree_v1 : FS :=
  Dir "." (Ok [Dir "thoughts-main"
                 (Ok [File "README.md" (Ok "Hello");
                      File "LICENSE" (Ok "MIT");
                      Dir "notes"
                        (Ok [File "today.md" (Ok "See [link](./other.md)")])])]).

(** A later pull: the note is gone. *)
Definition tree_v2 : FS :=
  Dir "." (Ok [Dir "thoughts-main" (Ok [File "README.md" (Ok "Hello again")])]).

(** A pull without an index document. *)
Definition tree_no_index : FS :=
  Dir "." (Ok [Dir "thoughts-main" (Ok [File "a.md" (Ok "A")])]).

(** A pull whose index file cannot be read. *)
Definition tree_unreadable : FS :=
  Dir "." (Ok [Dir "thoughts-main" (Ok [File "README.md" (Fail timeout)])]).

(** The site after [Serve] synced the active slot on [tree_v1]. *)
Definition site_v1 : site :=
  snd (fst (Serve_start scripted newSite (play [Ok "c1"] [Ok tree_v1]))).

(** A transform that, like a renderer writing into a fresh buffer, returns
    [nil] when it has nothing to write. *)
Definition paragraph (src : string) : option string :=
  match src with
  | EmptyString => None
  | _ => Some ("<p>" +:+ src +:+ "</p>")
  end.

(** ** site.go: the HTTP surface

    A response is what the handler wrote to the [http.ResponseWriter]: the
    status, the headers it set, the body.  Rendering fills the cache of the
    Document the slot points to; the handler returns the site with that
    Document stored back where it was read. *)

Record response : Type := mkResponse {
  status : nat;
  header : list (string * string);
  body : string
}.

Definition StatusOK : nat := 200.
Definition StatusNotFound : nat := 404.
Definition StatusInternalServerError : nat := 500.

(** [http.Error(w, msg, code)] *)
Definition http_Error (msg : string) (code : nat) : response :=
  {| status := code;
     header := [("Content-Type", "text/plain; charset=utf-8");
                ("X-Content-Type-Options", "nosniff")];
     body := msg +:+ String (Ascii.ascii_of_nat 10) EmptyString |}.

(** Where [ServeHTTP] found the Document it serves. *)
Inductive place : Type :=
| at_index
| at_path (p : string).

(** The active slot with the Document at [pl] replaced by [d] (the effect of
    a write through the pointer the slot holds). *)
Definition store (s : site) (pl : place) (d : document) : site :=
  let r := active s in
  let r :=
    match pl with
    | at_index => {| hash := hash r; index := Some d; documents := documents r |}
    | at_path p =>
        {| hash := hash r; index := index r; documents := <[p := d]> (documents r) |}
    end in
  match activeRepo s with
  | versionA_ptr =>
      {| activeRepo := activeRepo s; versionA := r; versionB := versionB s |}
  | versionB_ptr =>
      {| activeRepo := activeRepo s; versionA := versionA s; versionB := r |}
  end.

Section HTTP.

(** The markdown transform, the site title, and the parsed [wrapper]
    template applied to a title and a body ([s.tpl.Execute]). *)
Variable markdown_Render : string -> option string.
Variable title : string.
Variable tpl_Execute : string -> string -> result string.

(** [renderDocument]; a nil slice converts to the empty [template.HTML]. *)
Definition renderDocument (doc : document) (runs : nat)
  : result string * document * nat :=
  let '(contents, doc, runs) := Render markdown_Render doc runs in
  (tpl_Execute title (default EmptyString contents), doc, runs).

(** [serve] on the Document found at [pl].  A nil Document makes [Render]
    dereference a nil pointer; the panic is recovered by the deferred
    function of [ServeHTTP], which answers with [http.Error]. *)
Definition serve (s : site) (pl : place) (doc : option document) (runs : nat)
  : response * site * nat :=
  match doc with
  | None => (http_Error "internal server error" StatusInternalServerError, s, runs)
  | Some doc =>
      match renderDocument doc runs with
      | (Fail _, doc, runs) =>
          (http_Error "internal server error" StatusInternalServerError,
           store s pl doc, runs)
      | (Ok b, doc, runs) =>
          ({| status := StatusOK;
              header := [("Content-Type", "text/html")];
              body := b |},
           store s pl doc, runs)
      end
  end.

Definition serveIndex (s : site) (runs : nat) : response * site * nat :=
  serve s at_index (Index (active s)) runs.

(** [ServeHTTP] for a request with [r.URL.Path = url_path]. *)
Definition ServeHTTP (s : site) (url_path : string) (runs : nat)
  : response * site * nat :=
  if String.eqb url_path "/" then serveIndex s runs
  else
    let path := strings.TrimPrefix url_path "/" in
    match Document (active s) path with
    | None => (http_Error "not found" StatusNotFound, s, runs)
    | Some doc => serve s (at_path path) (Some doc) runs
    end.

End HTTP.

(** ** ghclient.go: [newGitHubClient] *)

Record githubClient : Type := mkGitHubClient {
  apiURL : string;
  owner : string;
  name : string
}.

Section GitHubClient.

(** [url.Parse], reduced to what the constructor reads: the [Path] of the
    parsed URL, or the error. *)
Variable url_Parse : string -> result string.

Definition newGitHubClient (apiURL repoURL : string) : result githubClient :=
  match url_Parse repoURL with
  | Fail err => Fail (Wrapf "failed to parse url" err)
  | Ok u_Path =>
      let p := strings.Split u_Path "/" in
      if negb (length p =? 3)%nat
      then Fail (New "invalid repo url, should be just github.com/{owner}/{name}")
      else Ok {| apiURL := apiURL;
                 owner := default EmptyString (p !! 1%nat);
                 name := default EmptyString (p !! 2%nat) |}
  end.

End GitHubClient.

(** [s'] is [s] with some occurrences of [".md"] that stand directly in
    front of a [")"] deleted, and nothing else changed. *)
Inductive drops_md : string -> string -> Prop :=
| drops_done : drops_md EmptyString EmptyString
| drops_keep c s s' : drops_md s s' -> drops_md (String c s) (String c s')
| drops_drop s s' :
    drops_md (String ")" s) s' ->
    drops_md (String "." (String "m" (String "d" (String ")" s)))) s'.

(** Two Documents that differ at most in their render cache. *)
Definition same_source (d1 d2 : document) : Prop :=
  path d1 = path d2 /\ contents d1 = contents d2.

(** The Document the active slot holds at a place. *)
Definition found_at (s : site) (pl : place) : option document :=
  match pl with
  | at_index => Index (active s)
  | at_path p => Document (active s) p
  end.

(** * Theorems *)

(** ** Indexing *)

Section IndexFacts.

Lemma last_such_snoc {A} (f : A -> bool) (l : list A) (x : A) :
  last_such f (l ++ [x]) = if f x then Some x else last_such f l.
Proof. unfold last_such. rewrite rev_app_distr. reflexivity. Qed.

Lemma last_such_None {A} (f : A -> bool) (l : list A) :
  last_such f l = None <-> forall x, x ∈ l -> f x = false.
Proof.
  unfold last_such. split.
  - intros H x Hx. apply list_elem_of_In, in_rev in Hx.
    exact (find_none _ _ H x Hx).
  - intros H. destruct (find f (rev l)) as [x|] eqn:E; [|done].
    apply find_some in E as [Hin Hf].
    apply in_rev, list_elem_of_In, H in Hin. congruence.
Qed.

Lemma index_fold_hash (docs : list document) (r : repo) :
  hash (foldl index_step r docs) = hash r.
Proof.
  revert r. induction docs as [|d docs IH]; intros r; [done|].
  simpl. rewrite IH. unfold index_step. by destruct (String.eqb _ _).
Qed.

Lemma index_fold_index (docs : list document) (r : repo) :
  index (foldl index_step r docs) =
  match last_such is_index docs with Some d => Some d | None => index r end.
Proof.
  induction docs as [|d docs IH] using rev_ind; [done|].
  rewrite foldl_app, last_such_snoc. simpl.
  unfold index_step at 1, is_index at 1.
  destruct (String.eqb (path d) "README.md"); simpl; [done|exact IH].
Qed.

Lemma index_fold_lookup (docs : list document) (r : repo) (p : string) :
  documents (foldl index_step r docs) !! p =
  match last_such (routed_at p) docs with
  | Some d => Some d
  | None => documents r !! p
  end.
Proof.
  induction docs as [|d docs IH] using rev_ind; [done|].
  rewrite foldl_app, last_such_snoc. simpl.
  unfold index_step at 1, routed_at at 1, is_index.
  destruct (String.eqb (path d) "README.md"); simpl; [exact IH|].
  destruct (String.eqb_spec (strings.TrimSuffix (path d) ".md") p) as [->|Hne].
  - by rewrite lookup_insert_eq.
  - by rewrite lookup_insert_ne.
Qed.

Lemma index_fold_mono (docs : list document) (r : repo) (p : string) :
  is_Some (documents r !! p) ->
  is_Some (documents (foldl index_step r docs) !! p).
Proof.
  intros H. rewrite index_fold_lookup.
  by destruct (last_such (routed_at p) docs).
Qed.

Lemma indexDocuments_repo (r : repo) (docs : list document) :
  snd (indexDocuments r docs) = foldl index_step r docs.
Proof. unfold indexDocuments. by destruct (index _). Qed.

(** No index document after the loop: there was none before and the list
    brings none. *)
Lemma index_fold_None (docs : list document) (r : repo) :
  index (foldl index_step r docs) = None <->
  index r = None /\ forall d, d ∈ docs -> path d <> "README.md".
Proof.
  rewrite index_fold_index.
  destruct (last_such is_index docs) as [d|] eqn:E.
  - split; [done|]. intros [_ Hno]. exfalso.
    unfold last_such in E. apply find_some in E as [Hin Hd].
    apply in_rev, list_elem_of_In in Hin.
    apply (Hno d Hin). unfold is_index in Hd. by apply String.eqb_eq.
  - pose proof (proj1 (last_such_None _ _) E) as Hnone.
    split.
    + intros Hr. split; [done|]. intros d Hin Hp.
      specialize (Hnone d Hin). unfold is_index in Hnone.
      rewrite Hp in Hnone. discriminate.
    + by intros [? _].
Qed.

(** What [indexDocuments] returns, in terms of its loop. *)
Lemma indexDocuments_inv (r : repo) (docs : list document) err r' :
  indexDocuments r docs = (err, r') ->
  r' = foldl index_step r docs /\
  (err = None /\ index r' <> None \/
   err = Some (New "no index document found") /\ index r' = None).
Proof.
  unfold indexDocuments. intros H.
  destruct (index (foldl index_step r docs)) as [d|] eqn:E;
    inversion H; subst; rewrite E; split; try done; [left|right]; done.
Qed.

End IndexFacts.

(** C5 (as amended).  Indexing a list of Documents into a slot: the last
    Document whose path is ["README.md"] becomes the index document (the
    slot's index is kept when there is none) and is not put in the mapping;
    every other Document is bound at its path without the [".md"] suffix,
    the last one seen winning, and all other bindings are kept; the call
    fails exactly when the slot had no index document before and no
    Document of the list has path ["README.md"]. *)
Theorem indexDocuments_spec (r : repo) (docs : list document)
        (err : option error) (r' : repo) :
  indexDocuments r docs = (err, r') ->
  index r' =
    match last_such is_index docs with Some d => Some d | None => index r end
  /\ (forall p, documents r' !! p =
                match last_such (routed_at p) docs with
                | Some d => Some d
                | None => documents r !! p
                end)
  /\ hash r' = hash r
  /\ (err <> None <->
      index r = None /\ forall d, d ∈ docs -> path d <> "README.md").
Proof.
  intros H. destruct (indexDocuments_inv _ _ _ _ H) as [-> Herr].
  split; [apply index_fold_index|].
  split; [intros p; apply index_fold_lookup|].
  split; [apply index_fold_hash|].
  rewrite <- index_fold_None.
  destruct Herr as [[-> Hi]|[-> Hi]]; split; done.
Qed.

Lemma indexDocuments_spec_witness :
  let r := snd (indexDocuments newRepo [mkDocument "README.md" "Hello" None]) in
  let docs := [mkDocument "a.md" "one" None; mkDocument "a.md" "two" None] in
  index (snd (indexDocuments r docs)) = Some (mkDocument "README.md" "Hello" None)
  /\ documents (snd (indexDocuments r docs)) !! "a" =
     Some (mkDocument "a.md" "two" None)
  /\ documents (snd (indexDocuments r docs)) !! "README" = None.
Proof.
  intros r docs.
  destruct (indexDocuments_spec r docs (fst (indexDocuments r docs))
              (snd (indexDocuments r docs)) eq_refl) as (Hi & Hl & _ & _).
  split; [exact Hi|]. split; [exact (Hl "a")|exact (Hl "README")].
Defined.

(** C5 (as stated) fails: with an index document left by an earlier sync,
    a list without ["README.md"] is indexed without an error. *)
Lemma indexDocuments_stale_index :
  let r := snd (indexDocuments newRepo [mkDocument "README.md" "Hello" None]) in
  let docs := [mkDocument "a.md" "A" None] in
  ~ (fst (indexDocuments r docs) <> None <->
     forall d, d ∈ docs -> path d <> "README.md").
Proof.
  intros r docs [_ H].
  apply H; [|reflexivity].
  intros d Hd. apply list_elem_of_singleton in Hd. subst d. discriminate.
Qed.

(** ** [Sync] *)

Section SyncFacts.

Context {W : Type}.
Variable fp : fileProvider W.

Lemma Sync_inv (r : repo) (w : W) err r' w' :
  Sync fp r w = (err, r', w') -> Sync_path fp r w err r' w'.
Proof.
  unfold Sync. intros H.
  destruct (LastHash fp w) as [[h|e] w1] eqn:EH.
  - destruct (String.eqb_spec h (hash r)) as [Heq|Hne].
    + inversion H; subst. by eapply hash_equal.
    + destruct (Contents fp w1) as [[[t cleanup]|e] w2] eqn:EC.
      * destruct (extractDocuments t) as [docs|e] eqn:EX.
        -- destruct (indexDocuments r docs) as [e2 r2] eqn:EI.
           inversion H; subst. by eapply indexed.
        -- inversion H; subst. by eapply extract_failed.
      * inversion H; subst. by eapply pull_failed.
  - inversion H; subst. by eapply hash_failed.
Qed.

(** No path through [Sync] assigns the [hash] field. *)
Lemma Sync_hash (r : repo) (w : W) err r' w' :
  Sync fp r w = (err, r', w') -> hash r' = hash r.
Proof.
  intros H. destruct (Sync_inv _ _ _ _ _ H); subst; try done.
  match goal with
  | HI : indexDocuments _ ?docs = _ |- _ =>
      pose proof (indexDocuments_repo r docs) as Hr; rewrite HI in Hr
  end.
  simpl in Hr. subst r'. apply index_fold_hash.
Qed.

(** When the fingerprint read equals the [hash] field, [Sync] is a no-op
    that does not call [Contents]. *)
Lemma Sync_hash_equal (r : repo) (w w1 : W) :
  LastHash fp w = (Ok (hash r), w1) -> Sync fp r w = (None, r, w1).
Proof. unfold Sync. intros ->. by rewrite String.eqb_refl. Qed.

End SyncFacts.

(** C1.  The code at the failing input: a fresh slot and a source that
    reports the fingerprint ["abc"] at both checks.  Both syncs succeed,
    the first leaves the [hash] field empty, and the second pulls the full
    tree again. *)
Theorem Sync_same_fingerprint_pulls_again :
  let w0 := play [Ok "abc"; Ok "abc"] [Ok tree_v1; Ok tree_v1] in
  let '(err1, r1, w1) := Sync scripted newRepo w0 in
  let '(err2, r2, w2) := Sync scripted r1 w1 in
  err1 = None /\ err2 = None /\
  hash r1 = "" /\ hash r2 = "" /\
  LastHash_calls w2 = 2 /\ Contents_calls w1 = 1 /\ Contents_calls w2 = 2.
Proof. vm_compute. repeat split. Qed.

(** C3 (as amended).  When [Sync] returns an error, the slot's index
    document and recorded fingerprint are what they were.  Unless the error
    is the missing index document the whole slot is unchanged; when it is,
    the slot had no index document, the pulled tree has none, and the
    mapping is the old one with the pulled Documents bound at their routed
    paths. *)
Theorem Sync_error_state {W : Type} (fp : fileProvider W) (r : repo) (w : W)
        (err : error) (r' : repo) (w' : W) :
  Sync fp r w = (Some err, r', w') ->
  index r' = index r /\ hash r' = hash r
  /\ (err <> New "no index document found" -> r' = r)
  /\ (err = New "no index document found" ->
      index r = None /\
      exists h w1 t cleanup w2 docs,
        LastHash fp w = (Ok h, w1) /\ Contents fp w1 = (Ok (t, cleanup), w2) /\
        extractDocuments t = Ok docs /\
        (forall d, d ∈ docs -> path d <> "README.md") /\
        forall p, documents r' !! p =
                  match last_such (routed_at p) docs with
                  | Some d => Some d
                  | None => documents r !! p
                  end).
Proof.
  intros H. pose proof (Sync_hash fp _ _ _ _ _ H) as Hh.
  destruct (Sync_inv fp _ _ _ _ _ H) as
    [e HL He Hr|h HL Hq He Hr|h w1 e HL Hn HC He Hr
    |h w1 t cl w2 e HL Hn HC HX Hw He Hr|h w1 t cl w2 docs HL Hn HC HX Hw HI];
    try (subst r';
         first [ discriminate He
               | inversion He; subst; repeat split;
                 first [ done | intros; discriminate ] ]).
  destruct (indexDocuments_inv _ _ _ _ HI) as [Hr' [[? _]|[Herr Hnone]]];
    [discriminate|].
  injection Herr as ->.
  pose proof Hnone as Hb. rewrite Hr' in Hb. apply index_fold_None in Hb as [Hb Hno].
  split; [by rewrite Hnone, Hb|]. split; [done|]. split; [done|].
  intros _. split; [done|]. exists h, w1, t, cl, w2, docs.
  repeat split; try done.
  intros p. rewrite Hr'. apply index_fold_lookup.
Qed.

Lemma Sync_error_state_witness :
  let w0 := play [Ok "abc"] [Fail timeout] in
  let r := snd (indexDocuments newRepo [mkDocument "README.md" "Hello" None]) in
  snd (fst (Sync scripted r w0)) = r.
Proof.
  intros w0 r.
  refine (proj1 (proj2 (proj2
    (Sync_error_state scripted r w0 _ _ _ eq_refl))) _).
  discriminate.
Defined.

(** C3 (as stated) fails: a first sync of a fresh slot whose pulled tree has
    no index document returns an error and has changed the mapping. *)
Lemma Sync_error_changes_mapping :
  let w0 := play [Ok "abc"] [Ok tree_no_index] in
  let '(err, r', _) := Sync scripted newRepo w0 in
  err = Some (New "no index document found") /\
  documents newRepo !! "a" = None /\
  documents r' !! "a" = Some (mkDocument "a.md" "A" None) /\
  documents r' <> documents newRepo.
Proof.
  vm_compute. repeat split. intros H. discriminate H.
Qed.

(** C10.  No [Sync], successful or not, unmaps a path; and a path at which
    the pulled tree routes no Document keeps the Document it had. *)
Theorem Sync_never_unmaps {W : Type} (fp : fileProvider W) (r : repo) (w : W)
        (err : option error) (r' : repo) (w' : W) :
  Sync fp r w = (err, r', w') ->
  (forall p, is_Some (Document r p) -> is_Some (Document r' p))
  /\ (forall h w1 t cleanup w2 docs p,
        LastHash fp w = (Ok h, w1) ->
        Contents fp w1 = (Ok (t, cleanup), w2) ->
        extractDocuments t = Ok docs ->
        (forall d, d ∈ docs -> routed_at p d = false) ->
        Document r' p = Document r p).
Proof.
  intros H. unfold Document.
  destruct (Sync_inv fp _ _ _ _ _ H) as
    [e HL He Hr|h HL Hq He Hr|h w1 e HL Hn HC He Hr
    |h w1 t cl w2 e HL Hn HC HX Hw He Hr|h w1 t cl w2 docs HL Hn HC HX Hw HI];
    try (subst r'; split; [done|]; intros; done).
  destruct (indexDocuments_inv _ _ _ _ HI) as [-> _].
  pose proof (index_fold_lookup docs r) as Hl.
  split.
  - intros p Hp. by apply index_fold_mono.
  - intros h' w1' t' cl' w2' docs' p HL' HC' HX' Hno.
    rewrite HL in HL'. inversion HL'; subst h' w1'.
    rewrite HC in HC'. inversion HC'; subst t' cl' w2'.
    rewrite HX in HX'. inversion HX'; subst docs'.
    rewrite Hl. by rewrite (proj2 (last_such_None _ _) Hno).
Qed.

Lemma Sync_never_unmaps_witness :
  let w0 := play [Ok "c1"; Ok "c2"] [Ok tree_v1; Ok tree_v2] in
  let r1 := snd (fst (Sync scripted newRepo w0)) in
  let w1 := snd (Sync scripted newRepo w0) in
  let r2 := snd (fst (Sync scripted r1 w1)) in
  is_Some (Document r1 "notes/today") /\
  Document r2 "notes/today" = Document r1 "notes/today".
Proof.
  intros w0 r1 w1 r2. split.
  - vm_compute. eauto.
  - refine (proj2 (Sync_never_unmaps scripted r1 w1
                     (fst (fst (Sync scripted r1 w1))) r2
                     (snd (Sync scripted r1 w1)) eq_refl)
              "c2" _ tree_v2 _ _ _ "notes/today" eq_refl eq_refl eq_refl _).
    intros d Hd. vm_compute in Hd.
    apply list_elem_of_singleton in Hd. subst d. vm_compute. reflexivity.
Defined.

(** ** The refresh loop *)

Section LoopFacts.

Context {W : Type}.
Variable fp : fileProvider W.

Lemma tick_inv (s : site) (w : W) err s' w' :
  tick fp s w = (err, s', w') ->
  exists e r,
    Sync fp (inactive s) w = (e, r, w') /\
    match e with
    | Some _ => activeRepo s' = activeRepo s
    | None => activeRepo s' = flipped (activeRepo s)
    end /\
    active s' = match e with Some _ => active s | None => r end /\
    inactive s' = match e with Some _ => r | None => active s end /\
    (err = None <-> e = None).
Proof.
  unfold tick, inactive, active. intros H.
  destruct (activeRepo s) eqn:Ea;
    [destruct (Sync fp (versionB s) w) as [[[e|] r] w1] eqn:ES
    |destruct (Sync fp (versionA s) w) as [[[e|] r] w1] eqn:ES];
    inversion H; subst; simpl; rewrite ?Ea; simpl;
    eexists _, _; (split; [reflexivity|]); repeat split; done.
Qed.

Lemma syncRepos_app (before later : list select_case) (s : site) (w : W) s1 w1 :
  syncRepos fp before s w = (Selecting, s1, w1) ->
  syncRepos fp (before ++ later) s w = syncRepos fp later s1 w1.
Proof.
  revert s w. induction before as [|ev before IH]; intros s w H; simpl in *.
  - by inversion H.
  - destruct ev; [done|].
    destruct (tick fp s w) as [[[e|] s2] w2]; [done|]. by apply IH.
Qed.

(** The sync at the start of [Serve] does not move the selector. *)
Lemma Serve_start_selector (s : site) (w : W) :
  activeRepo (snd (fst (Serve_start fp s w))) = activeRepo s.
Proof.
  unfold Serve_start.
  by destruct (Sync fp (active s) w) as [[[e|] r] w1], (activeRepo s).
Qed.

(** Nor does the loop when it is cancelled: the selector moves only in a
    [tick]. *)
Lemma syncRepos_cancelled (events : list select_case) (s : site) (w : W) :
  syncRepos fp (ctx_Done :: events) s w = (Returned None, s, w).
Proof. reflexivity. Qed.

End LoopFacts.

(** C4.  One turn of the refresh loop syncs the inactive slot.  The selector
    is different afterwards only if that sync returned success, and then it
    points at the slot just synced; if the sync failed in any way, the
    selector, the active slot and what every request path resolves to are
    what they were. *)
Theorem tick_selector {W : Type} (fp : fileProvider W) (s : site) (w : W)
        (err : option error) (s' : site) (w' : W) :
  tick fp s w = (err, s', w') ->
  (activeRepo s' <> activeRepo s ->
   fst (fst (Sync fp (inactive s) w)) = None /\
   activeRepo s' = flipped (activeRepo s) /\
   active s' = snd (fst (Sync fp (inactive s) w)))
  /\ (fst (fst (Sync fp (inactive s) w)) <> None ->
      err <> None /\
      activeRepo s' = activeRepo s /\
      active s' = active s /\
      forall url_path, resolve s' url_path = resolve s url_path).
Proof.
  intros H. destruct (tick_inv fp _ _ _ _ _ H) as (e & r & HS & Hsel & Hact & _ & Herr).
  rewrite HS. simpl. split.
  - intros Hne. destruct e as [e|]; [congruence|]. done.
  - intros He. destruct e as [e|]; [|done].
    split; [intros Hn; apply Herr in Hn; discriminate|].
    split; [done|]. split; [done|].
    intros url_path. unfold resolve. by rewrite Hact.
Qed.

Lemma tick_selector_witness :
  let w := play [Ok "c2"] [Fail timeout] in
  let s' := snd (fst (tick scripted site_v1 w)) in
  activeRepo s' = activeRepo site_v1 /\
  resolve s' "/notes/today" = resolve site_v1 "/notes/today".
Proof.
  intros w s'.
  pose proof (proj2 (tick_selector scripted site_v1 w
                       (fst (fst (tick scripted site_v1 w))) s'
                       (snd (tick scripted site_v1 w)) eq_refl)) as H.
  assert (Hfail : fst (fst (Sync scripted (inactive site_v1) w)) <> None)
    by (vm_compute; discriminate).
  destruct (H Hfail) as (_ & Hsel & _ & Hres).
  split; [exact Hsel|apply Hres].
Defined.

(** C2 (as amended).  When the sync of the inactive slot fails at some turn
    of the loop, [syncRepos] returns that error there and then: whatever
    events follow, ticks included, no further sync is made.  The goroutine
    of [Serve] logs the error and returns [nil], so the error does not end
    [Serve]; the selector is the one before the failed turn. *)
Theorem syncRepos_stops_at_failure {W : Type} (fp : fileProvider W)
        (before later : list select_case) (s0 s s1 : site) (w0 w w1 : W)
        (err : error) :
  syncRepos fp before s0 w0 = (Selecting, s, w) ->
  tick fp s w = (Some err, s1, w1) ->
  syncRepos fp (before ++ ticker_C :: later) s0 w0 = (Returned (Some err), s1, w1)
  /\ Serve_syncRepos fp (before ++ ticker_C :: later) s0 w0 =
     (Returned None, [("failed to sync repos", err)], s1, w1)
  /\ activeRepo s1 = activeRepo s.
Proof.
  intros Hb Ht.
  assert (Hrun : syncRepos fp (before ++ ticker_C :: later) s0 w0 =
                 (Returned (Some err), s1, w1)).
  { rewrite (syncRepos_app fp _ _ _ _ _ _ Hb). simpl. by rewrite Ht. }
  split; [exact Hrun|]. split.
  - unfold Serve_syncRepos. by rewrite Hrun.
  - destruct (tick_inv fp _ _ _ _ _ Ht) as (e & r & _ & Hsel & _ & _ & Herr).
    destruct e as [e|]; [done|]. discriminate (proj2 Herr eq_refl).
Qed.

Lemma syncRepos_stops_at_failure_witness :
  let w0 := play [Ok "c2"; Fail timeout; Ok "c3"] [Ok tree_v2; Ok tree_v1] in
  let run := syncRepos scripted ([ticker_C] ++ ticker_C :: [ticker_C; ticker_C]) site_v1 w0 in
  (exists err, fst (fst run) = Returned (Some err)) /\
  LastHash_calls (snd run) = 2.
Proof.
  intros w0 run.
  pose proof (syncRepos_stops_at_failure scripted [ticker_C] [ticker_C; ticker_C]
                site_v1
                (snd (fst (syncRepos scripted [ticker_C] site_v1 w0)))
                _ w0
                (snd (syncRepos scripted [ticker_C] site_v1 w0))
                _ _ eq_refl eq_refl) as (Hrun & _ & _).
  fold run in Hrun. rewrite Hrun. split; [eauto|]. vm_compute. reflexivity.
Defined.

(** C2 (as stated) fails: the first background sync fails (the fingerprint
    check times out); two more ticks follow, but the loop has returned and
    the source is never asked again, although it would have answered. *)
Lemma refresh_ends_after_failed_sync :
  let w0 := play [Fail timeout; Ok "c2"] [Ok tree_v2] in
  let '(out, s', w') := syncRepos scripted [ticker_C; ticker_C; ticker_C] site_v1 w0 in
  out = Returned (Some (Wrapf "failed to sync repo B"
                          (Wrapf "failed to get last hash" timeout))) /\
  LastHash_calls w' = 1 /\ Contents_calls w' = 0 /\
  hashes w' = [Ok "c2"].
Proof. vm_compute. repeat split. Qed.

(** ** Rendering *)

Section RenderFacts.

Variable markdown_Render : string -> option string.

(** The first call on a fresh Document runs the transform once. *)
Lemma Render_first (d : document) (n : nat) :
  cache d = None ->
  Render markdown_Render d n =
  (markdown_Render (contents d),
   {| path := path d; contents := contents d;
      cache := markdown_Render (contents d) |}, S n).
Proof. unfold Render. by intros ->. Qed.

(** A Document with a cache is served from it: no run of the transform. *)
Lemma Render_cached (d : document) (n : nat) (c : string) :
  cache d = Some c -> Render markdown_Render d n = (Some c, d, n).
Proof. unfold Render. by intros ->. Qed.

(** The bytes of both calls are the same, and when the transform returned
    a non-nil slice the second call does not run it. *)
Lemma Render_twice (d : document) (n : nat) out1 d1 n1 out2 d2 n2 :
  Render markdown_Render d n = (out1, d1, n1) ->
  Render markdown_Render d1 n1 = (out2, d2, n2) ->
  out1 = out2 /\ (out1 <> None -> n2 = n1 /\ d2 = d1).
Proof.
  unfold Render. intros H1 H2.
  destruct (cache d) as [c|] eqn:E.
  - inversion H1; subst. rewrite E in H2. by inversion H2.
  - inversion H1; subst. simpl in H2.
    destruct (markdown_Render (contents d)) as [b|] eqn:Eb; simpl in H2.
    + by inversion H2.
    + rewrite ?Eb in H2. inversion H2; subst. done.
Qed.

End RenderFacts.

(** C8.  The code at the failing input: a fresh Document for which the
    transform returns a nil slice (nothing was written to the output
    buffer).  The first call leaves the cache nil, so the second call runs
    the transform again; the bytes returned are the same. *)
Theorem Render_nil_not_memoized (markdown_Render : string -> option string)
        (d : document) (n : nat) :
  cache d = None ->
  markdown_Render (contents d) = None ->
  let '(out1, d1, n1) := Render markdown_Render d n in
  let '(out2, d2, n2) := Render markdown_Render d1 n1 in
  out1 = out2 /\ cache d1 = None /\ n1 = S n /\ n2 = S (S n).
Proof.
  intros Hc Hnil. rewrite (Render_first _ _ _ Hc), Hnil.
  unfold Render. simpl. by rewrite Hnil.
Qed.

Lemma Render_nil_not_memoized_witness :
  let d := mkDocument "empty.md" "" None in
  let '(out1, d1, n1) := Render paragraph d 0 in
  let '(out2, d2, n2) := Render paragraph d1 n1 in
  out1 = out2 /\ cache d1 = None /\ n1 = 1 /\ n2 = 2.
Proof.
  exact (Render_nil_not_memoized paragraph (mkDocument "empty.md" "" None) 0
           eq_refl eq_refl).
Defined.

(** ** Walking a tree *)

Section entry_induction.

Variable P : entry -> Prop.
Hypothesis P_File : forall n data, P (File n data).
Hypothesis P_unlistable : forall n err, P (Dir n (Fail err)).
Hypothesis P_Dir : forall n dirs, Forall P dirs -> P (Dir n (Ok dirs)).

Lemma entry_induction : forall d, P d.
Proof using P_File P_unlistable P_Dir.
  fix IH 1. intros [n data|n [dirs|err]].
  - apply P_File.
  - apply P_Dir.
    refine ((fix all (l : list entry) : Forall P l :=
               match l with
               | [] => List.Forall_nil P
               | d1 :: l' => @List.Forall_cons _ P d1 l' (IH d1) (all l')
               end) dirs).
  - apply P_unlistable.
Qed.

End entry_induction.

Section WalkFacts.

Context {St : Type}.
Variable fn : string -> entry -> option error -> St -> option error * St.

Lemma visit_app (l1 l2 : list (string * entry)) (st : St) :
  visit fn (l1 ++ l2) st =
  match visit fn l1 st with
  | (Some err, st') => (Some err, st')
  | (None, st') => visit fn l2 st'
  end.
Proof.
  revert st. induction l1 as [|[p d] l1 IH]; intros st; simpl; [done|].
  destruct (fn p d None st) as [[err|] st']; [done|apply IH].
Qed.

(** On a tree whose directories can all be listed, the walk calls the
    callback on the entries in order, once each, with a nil error. *)
Lemma walkDir_visit (d : entry) :
  forall name st,
    listable d = true -> walkDir fn name d st = visit fn (entries name d) st.
Proof.
  induction d as [n data|n err|n dirs IH] using entry_induction;
    intros name st Hl.
  - simpl. by destruct (fn name _ None st) as [[e|] st'].
  - discriminate Hl.
  - simpl in *. destruct (fn name _ None st) as [[e|] st1]; [done|].
    clear st. revert st1. induction dirs as [|d1 dirs IHdirs]; intros st1.
    + done.
    + apply andb_prop in Hl as [Hl1 Hl2].
      inversion IH as [|? ? IH1 IH2]; subst.
      rewrite visit_app, (IH1 _ _ Hl1).
      destruct (visit fn (entries (path_Join name (Name d1)) d1) st1)
        as [[e|] st2]; [done|].
      by apply IHdirs.
Qed.

(** A callback that passes on the errors of the walk makes the walk of a
    tree with an unlistable directory fail. *)
Lemma walkDir_unlistable (d : entry) :
  (forall p d e st, fst (fn p d (Some e) st) <> None) ->
  forall name st, listable d = false -> fst (walkDir fn name d st) <> None.
Proof.
  intros Hfn.
  induction d as [n data|n err|n dirs IH] using entry_induction;
    intros name st Hl.
  - discriminate Hl.
  - simpl. destruct (fn name _ None st) as [[e|] st1]; [done|]. apply Hfn.
  - simpl in *. destruct (fn name _ None st) as [[e|] st1]; [done|].
    clear st. revert st1. induction dirs as [|d1 dirs IHdirs]; intros st1.
    + discriminate Hl.
    + inversion IH as [|? ? IH1 IH2]; subst.
      destruct (listable d1) eqn:E1; simpl in Hl.
      * destruct (walkDir fn (path_Join name (Name d1)) d1 st1)
          as [[e|] st2]; [done|].
        by apply IHdirs.
      * specialize (IH1 (path_Join name (Name d1)) st1 eq_refl).
        destruct (walkDir fn (path_Join name (Name d1)) d1 st1)
          as [[e|] st2]; [done|]. done.
Qed.

End WalkFacts.

(** ** Extraction *)

Lemma extract_fn_markdown (p : string) (d : entry) (docs : list document) :
  is_markdown (p, d) = true ->
  extract_fn p d None docs =
  match ReadFile d with
  | Ok _ => (None, docs ++ [document_of (p, d)])
  | Fail err => (Some (Wrapf "failed to read file" err), docs)
  end.
Proof.
  unfold is_markdown, extract_fn. simpl. intros H.
  apply andb_prop in H as [Hd Hs].
  destruct (IsDir d); [discriminate Hd|]. rewrite Hs, andb_false_r.
  unfold document_of. simpl. by destruct (ReadFile d).
Qed.

Lemma extract_fn_other (p : string) (d : entry) (docs : list document) :
  is_markdown (p, d) = false -> extract_fn p d None docs = (None, docs).
Proof.
  unfold is_markdown, extract_fn. simpl. intros H.
  destruct (IsDir d); [done|]. simpl in H. rewrite H.
  destruct (String.eqb_spec (Name d) "README.md") as [Hn|Hn]; [|done].
  rewrite Hn in H. discriminate H.
Qed.

Lemma visit_extract (l : list (string * entry)) (docs : list document) :
  forallb (fun pe => match ReadFile (snd pe) with Ok _ => true | Fail _ => false end)
          (List.filter is_markdown l) = true ->
  visit extract_fn l docs =
  (None, docs ++ map document_of (List.filter is_markdown l)).
Proof.
  revert docs. induction l as [|[p d] l IH]; intros docs H.
  - simpl. by rewrite app_nil_r.
  - cbn [visit List.filter] in *.
    destruct (is_markdown (p, d)) eqn:E.
    + cbn [forallb snd] in H. apply andb_prop in H as [Hr Hl].
      rewrite (extract_fn_markdown _ _ _ E).
      destruct (ReadFile d); [|discriminate Hr].
      rewrite (IH _ Hl). cbn [map]. by rewrite <- app_assoc.
    + rewrite (extract_fn_other _ _ _ E). by apply IH.
Qed.

(** C6.  On a readable tree, extraction returns one Document for each entry
    that is not a directory and whose name ends in [".md"], in the order of
    the walk, and nothing else; the Document's path is the entry's path in
    the tree without its first segment. *)
Theorem extractDocuments_spec (t : FS) :
  readable t = true -> extractDocuments t = Ok (spec_documents t).
Proof.
  unfold readable, extractDocuments, WalkDir, spec_documents. intros H.
  apply andb_prop in H as [Hl Hr].
  by rewrite (walkDir_visit _ _ _ _ Hl), (visit_extract _ _ Hr).
Qed.

Lemma extractDocuments_spec_witness :
  extractDocuments tree_v1 =
  Ok [mkDocument "README.md" "Hello" None;
      mkDocument "notes/today.md" "See [link](./other)" None].
Proof. exact (extractDocuments_spec tree_v1 eq_refl). Defined.

(** ** Link rewriting *)

Section StringFacts.

Local Arguments String.append !s1 s2 / : simpl nomatch.

Lemma append_assoc (a b c : string) : (a +:+ b) +:+ c = a +:+ (b +:+ c).
Proof. induction a as [|x a IH]; simpl; [done|by rewrite IH]. Qed.

Lemma append_nil_r (a : string) : a +:+ "" = a.
Proof. induction a as [|x a IH]; simpl; [done|by rewrite IH]. Qed.

Lemma length_append (a b : string) :
  String.length (a +:+ b) = String.length a + String.length b.
Proof. induction a as [|x a IH]; simpl; [done|by rewrite IH]. Qed.

Lemma substring_all (a : string) : String.substring 0 (String.length a) a = a.
Proof. induction a as [|x a IH]; simpl; [done|by rewrite IH]. Qed.

Lemma substring_append (a b : string) :
  String.substring 0 (String.length a) (a +:+ b) = a.
Proof.
  induction a as [|x a IH]; simpl; [by destruct b|by rewrite IH].
Qed.

(** What a sub-match consumed, when the input is [a +:+ rest]. *)
Lemma consumed_append (a rest : string) : regexp.consumed (a +:+ rest) rest = a.
Proof.
  unfold regexp.consumed. rewrite length_append.
  replace (String.length a + String.length rest - String.length rest)
    with (String.length a) by lia.
  apply substring_append.
Qed.

Lemma prefix_cons_ne (a b : ascii) (s1 s2 : string) :
  a <> b -> String.prefix (String a s1) (String b s2) = false.
Proof. intros H. simpl. by destruct (Ascii.ascii_dec a b). Qed.

Lemma prefix_cons_eq (a : ascii) (s1 s2 : string) :
  String.prefix (String a s1) (String a s2) = String.prefix s1 s2.
Proof. simpl. by destruct (Ascii.ascii_dec a a). Qed.

Lemma occurs_append (c : ascii) (a b : string) :
  occurs c (a +:+ b) = occurs c a || occurs c b.
Proof.
  induction a as [|x a IH]; simpl; [done|]. by rewrite IH, orb_assoc.
Qed.

End StringFacts.

(** Both sides to right-nested appends with the literal bytes exposed. *)
Ltac string_assoc :=
  repeat (progress (cbn [String.append]; rewrite ?append_assoc));
  try reflexivity.

Section RegexpFacts.

Import regexp.
Local Arguments String.append !s1 s2 / : simpl nomatch.

Context {R : Type}.

(** A greedy run of [[^c]] in front of the first [c]: when the
    continuation needs [c] next, the run takes everything up to it. *)
Lemma more_greedy_upto (c : ascii) (text z : string) (cont : string -> option R) :
  occurs c text = false ->
  (forall x s, x <> c -> cont (String x s) = None) ->
  more (Except c) false (text +:+ String c z) cont = cont (String c z).
Proof.
  intros Hfree Hcont. induction text as [|x text IH]; simpl in *.
  - by rewrite Ascii.eqb_refl.
  - apply orb_false_elim in Hfree as [Hx Hfree].
    rewrite Hx. simpl. rewrite (IH Hfree).
    destruct (cont (String c z)); simpl; [done|].
    apply Hcont. by apply Ascii.eqb_neq.
Qed.

(** A lazy run of [[^c]] stops at the first place where the continuation
    matches. *)
Lemma more_lazy_first (c : ascii) (t z : string) (cont : string -> option R) (r : R) :
  occurs c t = false ->
  (forall u, u <> "" -> occurs c u = false -> cont (u +:+ z) = None) ->
  cont z = Some r ->
  more (Except c) true (t +:+ z) cont = Some r.
Proof.
  intros Hfree Hnot Hz. induction t as [|x t IH]; simpl in *.
  - destruct z; simpl; by rewrite Hz.
  - apply orb_false_elim in Hfree as [Hx Hfree].
    assert (Hn : cont (String x t +:+ z) = None)
      by (apply Hnot; [done|by simpl; rewrite Hx]).
    simpl in Hn. rewrite Hn. simpl. rewrite Hx. simpl. by apply IH.
Qed.

End RegexpFacts.

Section LinkFacts.

Import regexp.
Local Arguments String.append !s1 s2 / : simpl nomatch.

Lemma linkRE_needs_bracket (c : ascii) (s : string) :
  c <> "["%char -> match_at linkRE (String c s) = None.
Proof.
  intros Hc. unfold match_at, linkRE. simpl.
  apply Ascii.eqb_neq in Hc. by rewrite Hc.
Qed.

Lemma linkRE_match (text t post : string) :
  text <> "" -> occurs "]" text = false ->
  t <> "" -> occurs ")" t = false ->
  match_at linkRE (String "[" (text +:+ "](./" +:+ t +:+ ".md)" +:+ post)) =
  Some (post, [String "[" (text +:+ "](./" +:+ t); ")"]).
Proof.
  intros Htext Hfree Ht Hfreet.
  destruct text as [|x text]; [done|]. simpl in Hfree.
  apply orb_false_elim in Hfree as [Hx Hfree].
  unfold match_at, linkRE. simpl. rewrite Hx. simpl.
  rewrite more_greedy_upto; [|done|].
  2:{ intros y s Hy. apply Ascii.eqb_neq in Hy. by rewrite Hy. }
  destruct t as [|y t]; [done|]. simpl in Hfreet.
  apply orb_false_elim in Hfreet as [Hy Hfreet].
  simpl. rewrite Hy. simpl.
  erewrite more_lazy_first; [reflexivity|done| |].
  - intros u Hu Hfu.
    destruct u as [|a [|b [|c [|d u]]]]; [done|..]; simpl in *;
      repeat match goal with
             | |- context [if ?b then _ else _] => destruct b eqn:?
             end; try done.
    simpl in Hfu. rewrite !orb_true_r in Hfu. discriminate Hfu.
  - simpl. f_equal. f_equal. f_equal.
    + change (String "[" (String x (text +:+ String "]" (String "(" (String "."
               (String "/" (String y (t +:+ String "." (String "m" (String "d"
               (String ")" post)))))))))))
        with (String "[" (String x (text +:+ "](./" +:+ String y t +:+ ".md)" +:+ post))).
      transitivity
        (consumed
           ((String "[" (String x (text +:+ "](./" +:+ String y t))) +:+
            (".md)" +:+ post))
           (".md)" +:+ post)).
      * f_equal. string_assoc.
      * by rewrite consumed_append.
    + f_equal. exact (consumed_append ")" post).
Qed.

(** A link whose target does not start with [./] is no match. *)
Lemma linkRE_other_target (text rest : string) :
  occurs "]" text = false ->
  String.prefix "./" rest = false ->
  match_at linkRE (String "[" (text +:+ "](" +:+ rest)) = None.
Proof.
  intros Hfree Hrest.
  unfold match_at, linkRE. simpl.
  destruct text as [|x text]; simpl.
  - done.
  - simpl in Hfree. apply orb_false_elim in Hfree as [Hx Hfree].
    rewrite Hx. simpl.
    rewrite more_greedy_upto; [|done|].
    2:{ intros y s Hy. apply Ascii.eqb_neq in Hy. by rewrite Hy. }
    simpl. destruct rest as [|a [|b rest]]; simpl in *; [done|..].
    + by destruct (a =? ".")%char.
    + destruct (Ascii.eqb_spec a "."); [|done].
      destruct (Ascii.eqb_spec b "/"); [|done].
      subst. simpl in Hrest. by destruct rest.
Qed.

End LinkFacts.

Section ReplaceFacts.

Import regexp.
Local Arguments String.append !s1 s2 / : simpl nomatch.

Variable r : re.
Variable tpl : list piece.

Lemma replace_from_cons (c : ascii) (s : string) :
  replace_from r tpl (String c s) 0 =
  match match_at r (String c s) with
  | Some (rest, caps) =>
      match String.length (String c s) - String.length rest with
      | O => expand tpl caps +:+ String c (replace_from r tpl s 0)
      | S n => expand tpl caps +:+ replace_from r tpl s n
      end
  | None => String c (replace_from r tpl s 0)
  end.
Proof. reflexivity. Qed.

(** Passing over the bytes of a match. *)
Lemma replace_from_skip (m rest : string) :
  replace_from r tpl (m +:+ rest) (String.length m) = replace_from r tpl rest 0.
Proof. induction m as [|c m IH]; simpl; [by destruct rest|exact IH]. Qed.

(** A non-empty match at the start of the input is replaced, and the scan
    goes on behind it. *)
Lemma replace_from_match (m rest : string) (caps : list string) :
  m <> "" ->
  match_at r (m +:+ rest) = Some (rest, caps) ->
  replace_from r tpl (m +:+ rest) 0 =
  expand tpl caps +:+ replace_from r tpl rest 0.
Proof.
  intros Hm H. destruct m as [|c m]; [done|].
  change (String c m +:+ rest) with (String c (m +:+ rest)) in *.
  rewrite replace_from_cons, H.
  replace (String.length (String c (m +:+ rest)) - String.length rest)
    with (S (String.length m)) by (simpl; rewrite length_append; lia).
  by rewrite replace_from_skip.
Qed.

End ReplaceFacts.

Section StripFacts.

Import regexp.
Local Arguments String.append !s1 s2 / : simpl nomatch.

(** Text without an opening bracket is copied. *)
Lemma strip_links_copy (pre rest : string) :
  occurs "[" pre = false ->
  strip_links (pre +:+ rest) = pre +:+ strip_links rest.
Proof.
  unfold strip_links, ReplaceAllString. intros Hfree.
  induction pre as [|c pre IH]; [done|].
  simpl in Hfree. apply orb_false_elim in Hfree as [Hc Hfree].
  change (String c pre +:+ rest) with (String c (pre +:+ rest)).
  rewrite replace_from_cons, linkRE_needs_bracket by (by apply Ascii.eqb_neq).
  rewrite (IH Hfree). reflexivity.
Qed.

Lemma strip_links_link (text t post : string) :
  text <> "" -> occurs "]" text = false ->
  t <> "" -> occurs ")" t = false ->
  strip_links ("[" +:+ text +:+ "](./" +:+ t +:+ ".md)" +:+ post) =
  "[" +:+ text +:+ "](./" +:+ t +:+ ")" +:+ strip_links post.
Proof.
  intros Htext Hfree Ht Hfreet. unfold strip_links, ReplaceAllString.
  replace ("[" +:+ text +:+ "](./" +:+ t +:+ ".md)" +:+ post)
    with (("[" +:+ text +:+ "](./" +:+ t +:+ ".md)") +:+ post)
    by string_assoc.
  rewrite (replace_from_match _ _ _ _ [("[" +:+ text +:+ "](./" +:+ t); ")"]).
  - unfold expand. cbn [foldr lookup list_lookup default Nat.sub id from_option].
    string_assoc.
  - done.
  - etrans; [|apply (linkRE_match text t post); done].
    f_equal. string_assoc.
Qed.

Lemma strip_links_other (text target post : string) :
  occurs "[" text = false -> occurs "]" text = false ->
  occurs "[" target = false -> String.prefix "./" target = false ->
  strip_links ("[" +:+ text +:+ "](" +:+ target +:+ ")" +:+ post) =
  "[" +:+ text +:+ "](" +:+ target +:+ ")" +:+ strip_links post.
Proof.
  intros Hb1 Hb2 Hb3 Hpre.
  assert (Hno : match_at linkRE
                  (String "[" (text +:+ "](" +:+ (target +:+ ")" +:+ post))) = None).
  { apply linkRE_other_target; [done|].
    destruct target as [|a [|b target]]; [reflexivity| |].
    - destruct (Ascii.ascii_dec "." a) as [<-|Hne]; [reflexivity|].
      by apply prefix_cons_ne.
    - destruct (Ascii.ascii_dec "." a) as [<-|Hne]; [|by apply prefix_cons_ne].
      destruct (Ascii.ascii_dec "/" b) as [<-|Hne];
        [rewrite !prefix_cons_eq in Hpre; by destruct target|].
      change (String.prefix "./" (String "." (String b (target +:+ ")" +:+ post)))
              = false).
      rewrite prefix_cons_eq. by apply prefix_cons_ne. }
  change ("[" +:+ text +:+ "](" +:+ target +:+ ")" +:+ post)
    with (String "[" (text +:+ "](" +:+ (target +:+ ")" +:+ post))).
  unfold strip_links at 1, ReplaceAllString.
  rewrite replace_from_cons, Hno.
  change (replace_from linkRE [Group 1; Group 2] ?s 0) with (strip_links s).
  replace (text +:+ "](" +:+ target +:+ ")" +:+ post)
    with ((text +:+ "](" +:+ target +:+ ")") +:+ post)
    by string_assoc.
  rewrite strip_links_copy.
  - string_assoc.
  - rewrite !occurs_append, Hb1, Hb3. reflexivity.
Qed.

End StripFacts.

Section FormFacts.

Import regexp.
Local Arguments String.append !s1 s2 / : simpl nomatch.

(** What a repetition of [[^c]] consumed has no [c]. *)
Lemma more_except_inv {R : Type} (c : ascii) (lazy : bool) (s : string)
      (cont : string -> option R) (r : R) :
  more (Except c) lazy s cont = Some r ->
  exists a b, s = a +:+ b /\ occurs c a = false /\ cont b = Some r.
Proof.
  revert r. induction s as [|x s IH]; intros r H.
  - exists "", "". split; [done|]. split; [done|].
    simpl in H. by destruct lazy, (cont "").
  - cbn [more] in H.
    assert (Hagain :
              (if accepts (Except c) x then more (Except c) lazy s cont else None)
              = Some r ->
              exists a b, String x s = a +:+ b /\ occurs c a = false /\
                          cont b = Some r).
    { simpl. destruct (x =? c)%char eqn:Hx; [done|]. simpl. intros Hm.
      destruct (IH _ Hm) as (a & b & -> & Ha & Hb).
      exists (String x a), b. split; [done|]. split; [|done].
      simpl. by rewrite Hx. }
    destruct lazy; unfold orelse in H.
    + destruct (cont (String x s)) as [r'|] eqn:Ec; [|by apply Hagain].
      injection H as <-. by exists "", (String x s).
    + destruct (if accepts (Except c) x then more (Except c) false s cont else None)
        as [r'|] eqn:Em.
      * injection H as <-. by apply Hagain.
      * by exists "", (String x s).
Qed.

(** [linkRE] matches only at the start of a link of its form... *)
Lemma linkRE_match_form (s rest : string) (caps : list string) :
  match_at linkRE s = Some (rest, caps) -> begins_with_link s.
Proof.
  unfold match_at, linkRE. simpl.
  destruct s as [|c0 s]; [done|].
  destruct (Ascii.eqb_spec c0 "[") as [->|]; [|done].
  destruct s as [|x s]; [done|].
  destruct (x =? "]")%char eqn:Hx; [done|]. simpl.
  intros H. apply more_except_inv in H as (a & b & -> & Ha & H).
  destruct b as [|c1 b]; [done|].
  destruct (Ascii.eqb_spec c1 "]") as [->|]; [|done].
  destruct b as [|c2 b]; [done|].
  destruct (Ascii.eqb_spec c2 "(") as [->|]; [|done].
  destruct b as [|c3 b]; [done|].
  destruct (Ascii.eqb_spec c3 ".") as [->|]; [|done].
  destruct b as [|c4 b]; [done|].
  destruct (Ascii.eqb_spec c4 "/") as [->|]; [|done].
  destruct b as [|y b]; [done|].
  destruct (y =? ")")%char eqn:Hy; [done|]. simpl in H.
  apply more_except_inv in H as (a2 & b2 & -> & Ha2 & H).
  destruct b2 as [|d1 b2]; [done|].
  destruct (Ascii.eqb_spec d1 ".") as [->|]; [|done].
  destruct b2 as [|d2 b2]; [done|].
  destruct (Ascii.eqb_spec d2 "m") as [->|]; [|done].
  destruct b2 as [|d3 b2]; [done|].
  destruct (Ascii.eqb_spec d3 "d") as [->|]; [|done].
  destruct b2 as [|d4 b2]; [done|].
  destruct (Ascii.eqb_spec d4 ")") as [->|]; [|done].
  exists (String x a), (String y a2), b2. unfold link_form, link_src.
  split; [|string_assoc].
  split; [done|]. split; [by simpl; rewrite Hx|].
  split; [done|]. by simpl; rewrite Hy.
Qed.

(** ... and at the start of every such link, up to its end. *)
Lemma linkRE_match_link (text t post : string) :
  link_form text t ->
  match_at linkRE (link_src text t +:+ post) =
  Some (post, [String "[" (text +:+ "](./" +:+ t); ")"]).
Proof.
  intros (Htext & Hfree & Ht & Hfreet).
  etrans; [|by apply (linkRE_match text t post)].
  f_equal. unfold link_src. string_assoc.
Qed.

Lemma begins_with_link_match (s : string) :
  begins_with_link s <-> match_at linkRE s <> None.
Proof.
  split.
  - intros (text & t & post & Hf & ->). by rewrite linkRE_match_link.
  - destruct (match_at linkRE s) as [[rest caps]|] eqn:E; [|done].
    intros _. by eapply linkRE_match_form.
Qed.

Lemma begins_with_link_append (s r : string) :
  begins_with_link s -> begins_with_link (s +:+ r).
Proof.
  intros (text & t & post & Hf & ->). exists text, t, (post +:+ r).
  split; [done|]. by rewrite append_assoc.
Qed.

(** Where no link of the form begins, one byte is copied. *)
Lemma strip_links_cons (c : ascii) (rest : string) :
  ~ begins_with_link (String c rest) ->
  strip_links (String c rest) = String c (strip_links rest).
Proof.
  intros Hno. unfold strip_links, ReplaceAllString.
  rewrite replace_from_cons.
  destruct (match_at linkRE (String c rest)) as [[r caps]|] eqn:E; [|done].
  exfalso. apply Hno. by eapply linkRE_match_form.
Qed.

(** Where a link of the form begins, it is replaced. *)
Lemma strip_links_form (text t post : string) :
  link_form text t ->
  strip_links (link_src text t +:+ post) = link_dst text t +:+ strip_links post.
Proof.
  intros (Htext & Hfree & Ht & Hfreet).
  etrans; [|etrans; [by apply (strip_links_link text t post)|]].
  - f_equal. unfold link_src. string_assoc.
  - unfold link_dst. string_assoc.
Qed.

Lemma length_link_src (text t : string) :
  0 < String.length (link_src text t).
Proof. unfold link_src. simpl. lia. Qed.

(** A string with the prefix [u], cut behind a place that is not in front
    of the end of [u]. *)
Lemma append_split (u : string) :
  forall x y v,
    x +:+ y = u +:+ v -> String.length u <= String.length x ->
    exists w, x = u +:+ w /\ v = w +:+ y.
Proof.
  induction u as [|c u IH]; intros x y v H Hlen.
  - exists x. by simpl in *.
  - destruct x as [|c' x]; [simpl in Hlen; lia|].
    simpl in H. injection H as -> H.
    destruct (IH x y v H ltac:(simpl in Hlen; lia)) as (w & -> & ->).
    by exists w.
Qed.

(** The scan of what follows [pre] is the scan of the whole from there on,
    when no link that begins in [pre] reaches further. *)
Lemma strip_links_append (n : nat) :
  forall pre rest,
    String.length pre <= n -> ~ reaches_into pre rest ->
    strip_links (pre +:+ rest) = strip_links pre +:+ strip_links rest.
Proof.
  induction n as [|n IH]; intros pre rest Hn Hno.
  - destruct pre; [reflexivity|simpl in Hn; lia].
  - destruct pre as [|c pre]; [reflexivity|].
    destruct (match_at linkRE (String c pre +:+ rest)) as [[post caps]|] eqn:E.
    + apply linkRE_match_form in E as (text & t & post' & Hf & Heq).
      assert (Hlen : String.length (link_src text t) <= String.length (String c pre)).
      { apply Nat.nlt_ge. intros Hlt. apply Hno.
        by exists "", (String c pre), text, t, post'. }
      destruct (append_split _ _ _ _ Heq Hlen) as (w & Hpre & ->).
      rewrite Hpre, append_assoc, !strip_links_form by done.
      rewrite (IH w rest).
      * by rewrite append_assoc.
      * apply (f_equal String.length) in Hpre. rewrite length_append in Hpre.
        pose proof (length_link_src text t). lia.
      * intros (a & b & text' & t' & post'' & -> & Hb & Hf' & Heq' & Hlt).
        apply Hno. exists (link_src text t +:+ a), b, text', t', post''.
        split; [by rewrite Hpre, append_assoc|done].
    + assert (Hb : ~ begins_with_link (String c pre +:+ rest)).
      { intros Hb. apply begins_with_link_match in Hb. by apply Hb. }
      change (String c pre +:+ rest) with (String c (pre +:+ rest)) in *.
      rewrite strip_links_cons by done.
      rewrite (strip_links_cons c pre).
      * rewrite (IH pre rest); [done|simpl in Hn; lia|].
        intros (a & b & text' & t' & post'' & -> & Hb' & Hf' & Heq' & Hlt).
        apply Hno. by exists (String c a), b, text', t', post''.
      * intros Hb'. apply Hb.
        by apply (begins_with_link_append (String c pre) rest).
Qed.

(** A stretch in which no link of the form begins is copied. *)
Lemma strip_links_stretch (stretch post : string) :
  ~ begins_in stretch post ->
  strip_links (stretch +:+ post) = stretch +:+ strip_links post.
Proof.
  induction stretch as [|c stretch IH]; intros Hno; [done|].
  change (String c stretch +:+ post) with (String c (stretch +:+ post)).
  rewrite strip_links_cons.
  - rewrite IH; [done|].
    intros (a & b & -> & Hb & Hl). apply Hno. by exists (String c a), b.
  - intros Hl. apply Hno. by exists "", (String c stretch).
Qed.

(** A link whose target does not start with [./] is not of the form. *)
Lemma other_target_no_link (text target rest : string) :
  occurs "]" text = false -> String.prefix "./" target = false ->
  ~ begins_with_link ("[" +:+ text +:+ "](" +:+ target +:+ ")" +:+ rest).
Proof.
  intros Hfree Hpre Hb. apply begins_with_link_match in Hb. apply Hb.
  change ("[" +:+ text +:+ "](" +:+ target +:+ ")" +:+ rest)
    with (String "[" (text +:+ "](" +:+ (target +:+ ")" +:+ rest))).
  apply linkRE_other_target; [done|].
  destruct target as [|a [|b target]]; [reflexivity| |].
  - destruct (Ascii.ascii_dec "." a) as [<-|Hne]; [reflexivity|].
    by apply prefix_cons_ne.
  - destruct (Ascii.ascii_dec "." a) as [<-|Hne]; [|by apply prefix_cons_ne].
    destruct (Ascii.ascii_dec "/" b) as [<-|Hne];
      [rewrite !prefix_cons_eq in Hpre; by destruct target|].
    change (String.prefix "./" (String "." (String b (target +:+ ")" +:+ rest)))
            = false).
    rewrite prefix_cons_eq. by apply prefix_cons_ne.
Qed.

(** The two checks find what they look for. *)
Lemma begins_inb_complete (stretch post : string) :
  begins_in stretch post -> begins_inb stretch post = true.
Proof.
  induction stretch as [|c stretch IH]; intros (a & b & Heq & Hb & Hl).
  - destruct a, b; done.
  - cbn [begins_inb].
    destruct (match_at linkRE (String c stretch +:+ post)) as [?|] eqn:E; [done|].
    apply IH. destruct a as [|c' a].
    + simpl in Heq. subst b. apply begins_with_link_match in Hl. by apply Hl in E.
    + simpl in Heq. injection Heq as -> ->. by exists a, b.
Qed.

Lemma reaches_intob_complete (pre rest : string) :
  reaches_into pre rest -> reaches_intob pre rest = true.
Proof.
  induction pre as [|c pre IH];
    intros (a & b & text & t & post & Heq & Hb & Hf & Hl & Hlt).
  - destruct a, b; done.
  - cbn [reaches_intob]. destruct a as [|c' a].
    + simpl in Heq. subst b. rewrite Hl, linkRE_match_link by done.
      apply orb_true_intro. left. apply Nat.ltb_lt.
      apply (f_equal String.length) in Hl. rewrite !length_append in Hl. lia.
    + simpl in Heq. injection Heq as -> ->.
      assert (Hrec : reaches_intob (a +:+ b) rest = true).
      { apply IH. by exists a, b, text, t, post. }
      rewrite Hrec.
      destruct (match_at linkRE _) as [[? ?]|];
        [apply orb_true_r|done].
Qed.

End FormFacts.

(** C7 (as amended).  [newDocument] rewrites every link
    [[text](./target.md)] of the form [linkRE] looks for (text non-empty
    without [']'], target non-empty without [')']) that does not begin
    inside an earlier link of that form: when no such link begins before it
    and ends behind its opening bracket, the link loses the [".md"] of its
    target, and what stands in front of it and behind it is rewritten on
    its own.  A stretch of the contents into which no such link reaches and
    in which none begins is copied as it is.  A link whose text has no
    [']'] and whose target does not start with ["./"] is not of that form,
    so it is changed only when a link of the form begins inside it or
    reaches into it. *)
Theorem newDocument_links (p src : string) :
  newDocument p src =
  Ok {| path := p; contents := strip_links src; cache := None |}
  /\ (forall pre text t post,
        link_form text t ->
        ~ reaches_into pre (link_src text t +:+ post) ->
        strip_links (pre +:+ link_src text t +:+ post) =
        strip_links pre +:+ link_dst text t +:+ strip_links post)
  /\ (forall pre stretch post,
        ~ reaches_into pre (stretch +:+ post) ->
        ~ begins_in stretch post ->
        strip_links (pre +:+ stretch +:+ post) =
        strip_links pre +:+ stretch +:+ strip_links post)
  /\ (forall pre text target post,
        occurs "]" text = false -> String.prefix "./" target = false ->
        ~ reaches_into pre ("[" +:+ text +:+ "](" +:+ target +:+ ")" +:+ post) ->
        ~ begins_in (text +:+ "](" +:+ target +:+ ")") post ->
        strip_links (pre +:+ "[" +:+ text +:+ "](" +:+ target +:+ ")" +:+ post) =
        strip_links pre +:+ "[" +:+ text +:+ "](" +:+ target +:+ ")" +:+
        strip_links post).
Proof.
  split; [reflexivity|]. split; [|split].
  - intros pre text t post Hf Hno.
    by rewrite (strip_links_append _ pre _ (Nat.le_refl _) Hno), strip_links_form.
  - intros pre stretch post Hno Hin.
    by rewrite (strip_links_append _ pre _ (Nat.le_refl _) Hno), strip_links_stretch.
  - intros pre text target post Hfree Hpre Hno Hin.
    rewrite (strip_links_append _ pre _ (Nat.le_refl _) Hno). f_equal.
    change ("[" +:+ text +:+ "](" +:+ target +:+ ")" +:+ post)
      with (String "[" (text +:+ "](" +:+ target +:+ ")" +:+ post)).
    rewrite strip_links_cons by by apply other_target_no_link.
    replace (text +:+ "](" +:+ target +:+ ")" +:+ post)
      with ((text +:+ "](" +:+ target +:+ ")") +:+ post)
      by (rewrite !append_assoc; reflexivity).
    rewrite strip_links_stretch by done.
    by rewrite !append_assoc.
Qed.

Lemma newDocument_links_witness :
  newDocument "notes/today.md" "- [ ] todo: [link](./other.md)" =
  Ok {| path := "notes/today.md"; contents := "- [ ] todo: [link](./other)";
        cache := None |}
  /\ newDocument "a.md" "An [external](https://example.com/x.md) link" =
     Ok {| path := "a.md";
           contents := "An [external](https://example.com/x.md) link";
           cache := None |}.
Proof.
  split.
  - destruct (newDocument_links "notes/today.md" "- [ ] todo: [link](./other.md)")
      as (Hdoc & Hlink & _).
    assert (Hform : link_form "link" "other") by (repeat split; done).
    assert (Hno : ~ reaches_into "- [ ] todo: " (link_src "link" "other" +:+ "")).
    { intros H. apply reaches_intob_complete in H. vm_compute in H.
      discriminate H. }
    pose proof (Hlink "- [ ] todo: " "link" "other" "" Hform Hno) as E.
    etrans; [exact Hdoc|].
    exact (f_equal (fun s => Ok {| path := _; contents := s; cache := None |}) E).
  - destruct (newDocument_links "a.md" "An [external](https://example.com/x.md) link")
      as (Hdoc & _ & _ & Hother).
    assert (Hno : ~ reaches_into "An "
                    ("[" +:+ "external" +:+ "](" +:+ "https://example.com/x.md" +:+
                     ")" +:+ " link")).
    { intros H. apply reaches_intob_complete in H. vm_compute in H.
      discriminate H. }
    assert (Hin : ~ begins_in ("external" +:+ "](" +:+ "https://example.com/x.md" +:+ ")")
                    " link").
    { intros H. apply begins_inb_complete in H. vm_compute in H.
      discriminate H. }
    pose proof (Hother "An " "external" "https://example.com/x.md" " link"
                  eq_refl eq_refl Hno Hin) as E.
    etrans; [exact Hdoc|].
    exact (f_equal (fun s => Ok {| path := _; contents := s; cache := None |}) E).
Defined.

(** C7 (as stated) fails: a link to the sibling source file [other.md],
    written without a leading ["./"], keeps its [".md"]. *)
Lemma newDocument_keeps_bare_relative_link :
  newDocument "notes/today.md" "See [link](other.md) and [up](../top.md)" =
  Ok {| path := "notes/today.md";
        contents := "See [link](other.md) and [up](../top.md)";
        cache := None |}.
Proof. vm_compute. reflexivity. Qed.

(** The two conditions of the amended statement cannot be dropped: a link
    that begins inside an earlier link of the form keeps its [".md"], and a
    link with another target changes when a link of the form begins inside
    it. *)
Lemma strip_links_overlapping :
  strip_links "[a](./b[x.md) y](./t.md)" = "[a](./b[x) y](./t.md)"
  /\ strip_links "[a](b[c](./d.md)" = "[a](b[c](./d)".
Proof. split; vm_compute; reflexivity. Qed.

(** ** The caching decorator *)

Section JoinFacts.

Local Arguments String.append !s1 s2 / : simpl nomatch.

Lemma Split_nonempty (s : string) (c : ascii) : strings.Split s c <> [].
Proof.
  destruct s as [|x s]; simpl; [done|].
  destruct (Ascii.eqb x c); [done|]. by destruct (strings.Split s c).
Qed.

Lemma Join_cons (e : string) (rest : list string) (sep : string) :
  rest <> [] ->
  strings.Join (e :: rest) sep = e +:+ sep +:+ strings.Join rest sep.
Proof. by destruct rest. Qed.

(** Joining the pieces with the separator gives the string back. *)
Lemma Join_Split (s : string) (c : ascii) :
  strings.Join (strings.Split s c) (String c EmptyString) = s.
Proof.
  induction s as [|x s IH]; [done|]. cbn [strings.Split].
  destruct (Ascii.eqb_spec x c) as [->|Hne].
  - rewrite Join_cons by apply Split_nonempty. by rewrite IH.
  - pose proof (Split_nonempty s c) as Hn.
    destruct (strings.Split s c) as [|piece rest]; [done|].
    destruct rest as [|p2 rest].
    + simpl in *. by rewrite IH.
    + rewrite Join_cons in IH by done. rewrite Join_cons by done.
      cbn [String.append]. f_equal. exact IH.
Qed.

End JoinFacts.

Section DiskFacts.

Import os.




(** A successful [MkdirAll] leaves a directory at the path. *)
Lemma MkdirAll_makes_dir (d d1 : gmap string node) (path : string) :
  osfs.MkdirAll d path = (None, d1) -> d1 !! path = Some DirNode.
Proof.
  unfold osfs.MkdirAll.
  pose proof (Join_Split path "/") as HJ.
  rewrite <- (rev_involutive (strings.Split path "/")) in HJ.
  destruct (rev (strings.Split path "/")) as [|seg parent].
  - simpl in HJ. subst path. simpl.
    destruct (d !! "") as [[|?]|] eqn:E; [by intros [= <-]|done|done].
  - change (osfs.MkdirAll_rev (seg :: parent) d) with
      (match d !! strings.Join (rev (seg :: parent)) filepath.sep with
       | Some DirNode => (None, d)
       | Some (FileNode _) => (Some ENOTDIR, d)
       | None =>
           let '(err, d) :=
             match strings.Join (rev parent) filepath.sep with
             | EmptyString => (None, d)
             | _ => osfs.MkdirAll_rev parent d
             end in
           match err with
           | Some err => (Some err, d)
           | None =>
               (None, <[strings.Join (rev (seg :: parent)) filepath.sep := DirNode]> d)
           end
       end).
    change filepath.sep with (String "/" EmptyString). rewrite HJ.
    destruct (d !! path) as [[|?]|] eqn:Ep; [by intros [= <-]|done|].
    destruct (strings.Join (rev parent) "/").
    + intros [= <-]. apply lookup_insert_eq.
    + destruct (osfs.MkdirAll_rev parent d) as [[e|] d2]; [done|].
      intros [= <-]. apply lookup_insert_eq.
Qed.


(** Below the root the separator is not doubled. *)
Lemma Join_root :
  filepath.Join "/" cacheDir = "/cache"
  /\ filepath.Join "/srv" cacheDir = "/srv/cache"
  /\ filepath.Join "/cache" "thoughts-main/README.md" = "/cache/thoughts-main/README.md"
  /\ filepath.Join "/cache" "." = "/cache"
  /\ filepath.Join "/" "." = "/".
Proof. repeat split. Qed.



End DiskFacts.

Section CachedFacts.

Import os.
Context {W : Type}.
Variable client : fileProvider W.
Variable c : cachedGitHubClient.

Lemma cacheExists_present (d : gmap string node) :
  is_Some (d !! destRoot c) ->
  cacheExists c d = Some (osfs.Sub_DirFS d (filepath.Dir (destRoot c)) cacheDir).
Proof. unfold cacheExists, Stat. by intros [n ->]. Qed.

Lemma cacheExists_absent (d : gmap string node) :
  d !! destRoot c = None -> cacheExists c d = None.
Proof. unfold cacheExists, Stat. by intros ->. Qed.







End CachedFacts.




(** * Further properties of the code *)

(** ** Paths: [strings.Split], [strings.Join], [strings.TrimSuffix] *)

Section PathFacts.

Local Arguments String.append !s1 s2 / : simpl nomatch.

(** A string without the separator is one piece. *)
Lemma Split_free (s : string) (c : ascii) :
  occurs c s = false -> strings.Split s c = [s].
Proof.
  induction s as [|x s IH]; simpl; [done|]. intros H.
  apply orb_false_elim in H as [Hx Hs]. rewrite Hx, (IH Hs). done.
Qed.

(** The first piece ends at the first separator. *)
Lemma Split_first (a b : string) (c : ascii) :
  occurs c a = false ->
  strings.Split (a +:+ String c b) c = a :: strings.Split b c.
Proof.
  induction a as [|x a IH]; simpl; intros H.
  - by rewrite Ascii.eqb_refl.
  - apply orb_false_elim in H as [Hx Ha]. by rewrite Hx, (IH Ha).
Qed.

Lemma Split_pieces_free (s : string) (c : ascii) :
  Forall (fun piece => occurs c piece = false) (strings.Split s c).
Proof.
  induction s as [|x s IH]; simpl; [by repeat constructor|].
  destruct (Ascii.eqb x c) eqn:Hx; [by constructor|].
  destruct (strings.Split s c) as [|piece rest]; [by repeat constructor; simpl; rewrite Hx|].
  inversion IH; subst. constructor; [|done]. simpl. by rewrite Hx.
Qed.

Lemma substring_tail (a b : string) :
  String.substring (String.length a) (String.length b) (a +:+ b) = b.
Proof. induction a as [|x a IH]; simpl; [apply substring_all|exact IH]. Qed.

Lemma HasSuffix_append (a suffix : string) :
  strings.HasSuffix (a +:+ suffix) suffix = true.
Proof.
  unfold strings.HasSuffix. rewrite length_append.
  replace (String.length a + String.length suffix - String.length suffix)
    with (String.length a) by lia.
  rewrite substring_tail, String.eqb_refl, andb_true_r.
  apply Nat.leb_le. lia.
Qed.

(** [TrimSuffix] undoes appending the suffix. *)
Lemma TrimSuffix_append (a suffix : string) :
  strings.TrimSuffix (a +:+ suffix) suffix = a.
Proof.
  unfold strings.TrimSuffix. rewrite HasSuffix_append, length_append.
  replace (String.length a + String.length suffix - String.length suffix)
    with (String.length a) by lia.
  apply substring_append.
Qed.

Lemma without_first_segment_wrapped (wrapper rest : string) :
  occurs "/" wrapper = false ->
  without_first_segment (wrapper +:+ "/" +:+ rest) = rest.
Proof.
  intros H. unfold without_first_segment.
  change (wrapper +:+ "/" +:+ rest) with (wrapper +:+ String "/" rest).
  rewrite (Split_first _ _ _ H). simpl drop. apply Join_Split.
Qed.

Lemma without_first_segment_flat (p : string) :
  occurs "/" p = false -> without_first_segment p = "".
Proof. intros H. unfold without_first_segment. by rewrite (Split_free _ _ H). Qed.

End PathFacts.

(** X1.  A readable markdown file at [wrapper/rest], where [wrapper] is the
    first path segment, is extracted as the Document with logical path
    [rest] and the link-rewritten contents, appended to the Documents
    collected so far. *)
Theorem extract_fn_strips_wrapper (wrapper rest file data : string)
        (docs : list document) :
  occurs "/" wrapper = false ->
  strings.HasSuffix file ".md" = true ->
  extract_fn (wrapper +:+ "/" +:+ rest) (File file (Ok data)) None docs =
  (None, docs ++ [{| path := rest; contents := strip_links data; cache := None |}]).
Proof.
  intros Hw Hs.
  rewrite extract_fn_markdown by (unfold is_markdown; simpl; by rewrite Hs).
  simpl. unfold document_of. simpl.
  by rewrite (without_first_segment_wrapped _ _ Hw).
Qed.

Lemma extract_fn_strips_wrapper_witness :
  extract_fn "thoughts-main/notes/today.md" (File "today.md" (Ok "Hi")) None [] =
  (None, [{| path := "notes/today.md"; contents := "Hi"; cache := None |}]).
Proof.
  exact (extract_fn_strips_wrapper "thoughts-main" "notes/today.md" "today.md"
           "Hi" [] eq_refl eq_refl).
Defined.

(** Extraction succeeds only on a readable tree, and then with the
    Documents of its markdown files. *)
Lemma extractDocuments_inv (t : FS) (docs : list document) :
  extractDocuments t = Ok docs ->
  readable t = true /\ docs = spec_documents t.
Proof.
  intros Hx.
  assert (Hr : readable t = true).
  { unfold readable. destruct (listable t) eqn:El.
    - simpl. unfold extractDocuments, WalkDir in Hx.
      rewrite (walkDir_visit _ _ _ _ El) in Hx.
      revert Hx. generalize (@nil document).
      induction (entries "." t) as [|[p e] l IH]; intros acc Hx; [done|].
      cbn [visit List.filter] in *.
      destruct (is_markdown (p, e)) eqn:E.
      + rewrite (extract_fn_markdown _ _ _ E) in Hx.
        cbn [forallb snd]. destruct (ReadFile e); [|done]. simpl.
        by eapply IH.
      + rewrite (extract_fn_other _ _ _ E) in Hx. by eapply IH.
    - exfalso. unfold extractDocuments, WalkDir in Hx.
      pose proof (walkDir_unlistable extract_fn t
                    (fun _ _ _ _ => ltac:(done)) "." [] El) as Hne.
      by destruct (walkDir extract_fn "." t []) as [[e|] ds]. }
  split; [done|].
  unfold readable in Hr. apply andb_prop in Hr as [Hl Hf].
  unfold extractDocuments, WalkDir in Hx.
  rewrite (walkDir_visit _ _ _ _ Hl), (visit_extract _ _ Hf) in Hx.
  by injection Hx as <-.
Qed.

(** X2.  A tree without a wrapper directory has no index document: when
    every markdown file stands directly under the root (its path has no
    separator), each Document gets the empty logical path, and indexing the
    extracted Documents into a fresh slot fails, whatever the files are
    called. *)
Theorem flat_tree_has_no_index (t : FS) (docs : list document) :
  (forall pe, pe ∈ entries "." t -> is_markdown pe = true ->
              occurs "/" (fst pe) = false) ->
  extractDocuments t = Ok docs ->
  Forall (fun d => path d = "") docs /\
  fst (indexDocuments newRepo docs) = Some (New "no index document found").
Proof.
  intros Hflat Hx. apply extractDocuments_inv in Hx as [_ ->].
  assert (Hall : Forall (fun d => path d = "") (spec_documents t)).
  { unfold spec_documents. apply Forall_forall. intros d Hd.
    apply list_elem_of_In, in_map_iff in Hd as (pe & <- & Hin).
    apply filter_In in Hin as [Hin Hm]. simpl.
    apply without_first_segment_flat, Hflat; [by apply list_elem_of_In|done]. }
  split; [done|].
  destruct (indexDocuments newRepo (spec_documents t)) as [err r'] eqn:E.
  destruct (indexDocuments_inv _ _ _ _ E) as [-> [[_ Hi]|[-> _]]]; [|done].
  exfalso. apply Hi. apply index_fold_None. split; [done|].
  intros d Hd Hp. rewrite Forall_forall in Hall.
  rewrite (Hall d Hd) in Hp. discriminate.
Qed.

(** A pull of two files without a wrapper directory. *)
Lemma flat_tree_has_no_index_witness :
  fst (indexDocuments newRepo
         [mkDocument "" "Hello" None; mkDocument "" "A" None]) =
  Some (New "no index document found").
Proof.
  refine (proj2 (flat_tree_has_no_index
                   (Dir "." (Ok [File "README.md" (Ok "Hello"); File "a.md" (Ok "A")]))
                   _ _ eq_refl)).
  intros pe Hin _. apply list_elem_of_In in Hin. simpl in Hin.
  destruct Hin as [<-|[<-|[<-|[]]]]; reflexivity.
Defined.

(** X3.  Extraction succeeds exactly on readable trees: an unlistable
    directory anywhere in the tree, or a markdown file that cannot be read,
    makes it fail; files that are not markdown are never read. *)
Theorem extractDocuments_ok_iff_readable (t : FS) :
  (exists docs, extractDocuments t = Ok docs) <-> readable t = true.
Proof.
  split.
  - intros [docs H]. by apply extractDocuments_inv in H as [? _].
  - intros H. exists (spec_documents t).
    unfold readable in H. apply andb_prop in H as [Hl Hf].
    unfold extractDocuments, WalkDir.
    by rewrite (walkDir_visit _ _ _ _ Hl), (visit_extract _ _ Hf).
Qed.

(** ** [Sync] as a whole *)

(** X4.  A sync that pulls and returns success has installed the pulled
    tree: the tree was readable, the slot has an index document, and every
    route resolves to the last markdown file of the tree routed there, or,
    where the tree routes nothing, to what the slot held before; the
    provider's state is the released one. *)
Theorem Sync_pull_installs {W : Type} (fp : fileProvider W) (r r' : repo)
        (w w1 w2 w' : W) (h : string) (t : FS) (cleanup : W -> W) :
  LastHash fp w = (Ok h, w1) -> h <> hash r ->
  Contents fp w1 = (Ok (t, cleanup), w2) ->
  Sync fp r w = (None, r', w') ->
  readable t = true /\ is_Some (Index r') /\ w' = cleanup w2 /\
  forall p, Document r' p =
            match last_such (routed_at p) (spec_documents t) with
            | Some d => Some d
            | None => Document r p
            end.
Proof.
  intros HL Hne HC HS. unfold Sync in HS. rewrite HL in HS.
  destruct (String.eqb_spec h (hash r)) as [|_]; [done|]. rewrite HC in HS.
  destruct (extractDocuments t) as [docs|e] eqn:HX; [|done].
  apply extractDocuments_inv in HX as [Hr ->].
  destruct (indexDocuments r (spec_documents t)) as [err r1] eqn:HI.
  injection HS as -> -> <-.
  destruct (indexDocuments_inv _ _ _ _ HI) as [-> [[_ Hi]|[? _]]]; [|done].
  split; [done|]. split; [|split; [done|]].
  - unfold Index. by destruct (index _).
  - intros p. apply index_fold_lookup.
Qed.

Lemma Sync_pull_installs_witness :
  let w := play [Ok "c1"] [Ok tree_v1] in
  let r' := snd (fst (Sync scripted newRepo w)) in
  is_Some (Index r') /\
  Document r' "notes/today" =
  Some (mkDocument "notes/today.md" "See [link](./other)" None).
Proof.
  intros w r'.
  destruct (Sync_pull_installs scripted newRepo r' w _ _
              (snd (Sync scripted newRepo w)) "c1" tree_v1 _
              eq_refl ltac:(discriminate) eq_refl eq_refl)
    as (_ & Hi & _ & Hl).
  split; [exact Hi|exact (Hl "notes/today")].
Defined.

(** X5.  Whatever happens in [Sync] after [Contents] succeeded (extraction
    may fail, the index document may be missing), the release function has
    run when it returns. *)
Theorem Sync_releases {W : Type} (fp : fileProvider W) (r : repo)
        (w w1 w2 : W) (h : string) (t : FS) (cleanup : W -> W) :
  LastHash fp w = (Ok h, w1) -> h <> hash r ->
  Contents fp w1 = (Ok (t, cleanup), w2) ->
  snd (Sync fp r w) = cleanup w2.
Proof.
  intros HL Hne HC. unfold Sync. rewrite HL.
  destruct (String.eqb_spec h (hash r)) as [|_]; [done|]. rewrite HC.
  destruct (extractDocuments t); [|done].
  by destruct (indexDocuments r _).
Qed.

Lemma Sync_releases_witness :
  let w := play [Ok "c1"] [Ok tree_no_index] in
  fst (fst (Sync scripted newRepo w)) = Some (New "no index document found") /\
  releases (snd (Sync scripted newRepo w)) = 1.
Proof.
  intros w. split; [reflexivity|].
  by rewrite (Sync_releases scripted newRepo w _ _ "c1" tree_no_index _
                eq_refl ltac:(discriminate) eq_refl).
Defined.

(** X6.  A sync that returns success has either left the slot exactly as
    it was, because the fingerprint read equals the slot's [hash] field, or
    it has left the slot with an index document. *)
Theorem Sync_success_cases {W : Type} (fp : fileProvider W) (r r' : repo)
        (w w' : W) :
  Sync fp r w = (None, r', w') ->
  (r' = r /\ LastHash fp w = (Ok (hash r), w')) \/ is_Some (Index r').
Proof.
  intros H.
  destruct (Sync_inv fp _ _ _ _ _ H) as
    [e HL He Hr|h HL Hq He Hr|h w1 e HL Hn HC He Hr
    |h w1 t cl w2 e HL Hn HC HX Hw He Hr|h w1 t cl w2 docs HL Hn HC HX Hw HI];
    try discriminate.
  - left. by subst.
  - right. destruct (indexDocuments_inv _ _ _ _ HI) as [_ [[_ Hi]|[? _]]]; [|done].
    unfold Index. by destruct (index r').
Qed.

Lemma Sync_success_cases_witness :
  let w := play [Ok ""] [Ok tree_v1] in
  snd (fst (Sync scripted newRepo w)) = newRepo /\
  Contents_calls (snd (Sync scripted newRepo w)) = 0.
Proof.
  intros w.
  destruct (Sync_success_cases scripted newRepo _ w _ eq_refl) as [[Hr _]|[d Hd]].
  - split; [exact Hr|reflexivity].
  - discriminate Hd.
Defined.

(** ** Indexing, once more *)

(** X7.  A Document whose path is [q.md], other than the index file, is
    reachable at route [q] as soon as it is indexed, in any slot and after
    any other Documents. *)
Theorem indexDocuments_routes (r : repo) (docs : list document) (d : document)
        (q : string) :
  path d = q +:+ ".md" -> path d <> "README.md" ->
  Document (snd (indexDocuments r (docs ++ [d]))) q = Some d.
Proof.
  intros Hp Hne. rewrite indexDocuments_repo. unfold Document.
  rewrite index_fold_lookup, last_such_snoc.
  unfold routed_at, is_index.
  destruct (String.eqb_spec (path d) "README.md") as [|_]; [done|].
  by rewrite Hp, TrimSuffix_append, String.eqb_refl.
Qed.

Lemma indexDocuments_routes_witness :
  Document
    (snd (indexDocuments newRepo
            ([mkDocument "README.md" "Hello" None] ++
             [mkDocument "notes/today.md" "T" None])))
    "notes/today" = Some (mkDocument "notes/today.md" "T" None).
Proof.
  exact (indexDocuments_routes newRepo [mkDocument "README.md" "Hello" None]
           (mkDocument "notes/today.md" "T" None) "notes/today"
           eq_refl ltac:(discriminate)).
Defined.

Lemma repo_eq (r1 r2 : repo) :
  hash r1 = hash r2 -> index r1 = index r2 -> documents r1 = documents r2 ->
  r1 = r2.
Proof. destruct r1, r2. simpl. by intros -> -> ->. Qed.

(** X8.  Indexing is idempotent: indexing the same Documents a second time
    returns the same result and leaves the slot as the first time did. *)
Theorem indexDocuments_idempotent (r : repo) (docs : list document) :
  indexDocuments (snd (indexDocuments r docs)) docs = indexDocuments r docs.
Proof.
  rewrite indexDocuments_repo.
  assert (Hfix : foldl index_step (foldl index_step r docs) docs =
                 foldl index_step r docs).
  { apply repo_eq.
    - by rewrite !index_fold_hash.
    - rewrite (index_fold_index docs (foldl _ _ _)).
      destruct (last_such is_index docs) as [d|] eqn:E; [|done].
      by rewrite index_fold_index, E.
    - apply map_eq. intros p.
      rewrite (index_fold_lookup docs (foldl _ _ _)).
      destruct (last_such (routed_at p) docs) as [d|] eqn:E; [|done].
      by rewrite index_fold_lookup, E. }
  unfold indexDocuments. by rewrite Hfix.
Qed.

(** ** The refresh loop, once more *)

(** X9.  A turn of the loop never modifies the slot that was active when it
    started, whether the sync of the other slot succeeds or fails. *)
Theorem tick_keeps_active_slot {W : Type} (fp : fileProvider W)
        (s : site) (w : W) :
  match activeRepo s with
  | versionA_ptr => versionA (snd (fst (tick fp s w))) = versionA s
  | versionB_ptr => versionB (snd (fst (tick fp s w))) = versionB s
  end.
Proof.
  unfold tick. destruct (activeRepo s).
  - by destruct (Sync fp (versionB s) w) as [[[e|] r] w1].
  - by destruct (Sync fp (versionA s) w) as [[[e|] r] w1].
Qed.

(** X10.  A sync that does nothing still promotes: when the fingerprint read
    equals the [hash] field of the inactive slot, the turn makes no pull and
    flips the selector to that slot as it is, built or not. *)
Theorem tick_promotes_unbuilt_slot {W : Type} (fp : fileProvider W)
        (s : site) (w w1 : W) :
  LastHash fp w = (Ok (hash (inactive s)), w1) ->
  exists s',
    tick fp s w = (None, s', w1) /\
    activeRepo s' = flipped (activeRepo s) /\
    active s' = inactive s /\ inactive s' = active s.
Proof.
  intros HL. pose proof (Sync_hash_equal fp _ _ _ HL) as HS.
  unfold tick, inactive, active in *.
  destruct (activeRepo s) eqn:Ea; rewrite HS; eexists; (split; [reflexivity|]);
    simpl; by rewrite ?Ea.
Qed.

(** The first turn after a start at which the source reported the empty
    fingerprint: the never-built slot B becomes active, and no request
    resolves any more. *)
Lemma tick_promotes_unbuilt_slot_witness :
  let w := play [Ok ""] [] in
  let s' := snd (fst (tick scripted site_v1 w)) in
  activeRepo s' = versionB_ptr /\ active s' = newRepo /\
  resolve s' "/" = None /\ resolve site_v1 "/" <> None.
Proof.
  intros w s'.
  destruct (tick_promotes_unbuilt_slot scripted site_v1 w _ eq_refl)
    as (s2 & Ht & Hsel & Hact & _).
  assert (Hs : s' = s2) by (unfold s'; by rewrite Ht). rewrite Hs.
  split; [exact Hsel|]. split; [exact Hact|].
  split; [unfold resolve; by rewrite Hact|].
  vm_compute. discriminate.
Defined.

(** X11.  The two slots alternate: after [k] turns of the loop that all
    went through, the selector has been flipped [k] times. *)
Theorem syncRepos_alternates {W : Type} (fp : fileProvider W) (k : nat)
        (s s' : site) (w w' : W) :
  syncRepos fp (replicate k ticker_C) s w = (Selecting, s', w') ->
  activeRepo s' = Nat.iter k flipped (activeRepo s).
Proof.
  revert s w. induction k as [|k IH]; intros s w H; simpl in H.
  - by injection H as <- <-.
  - destruct (tick fp s w) as [[[e|] s1] w1] eqn:Et; [done|].
    destruct (tick_inv fp _ _ _ _ _ Et) as (e & r & _ & Hsel & _ & _ & Herr).
    destruct e as [e|]; [discriminate (proj1 Herr eq_refl)|].
    rewrite (IH _ _ H), Hsel. clear.
    induction k as [|k IHk]; simpl; [done|]. by rewrite IHk.
Qed.

Lemma syncRepos_alternates_witness :
  let w := play [Ok "c2"; Ok "c3"] [Ok tree_v2; Ok tree_v1] in
  activeRepo (snd (fst (syncRepos scripted (replicate 2 ticker_C) site_v1 w))) =
  activeRepo site_v1.
Proof.
  intros w.
  assert (E : syncRepos scripted (replicate 2 ticker_C) site_v1 w =
              (Selecting,
               snd (fst (syncRepos scripted (replicate 2 ticker_C) site_v1 w)),
               snd (syncRepos scripted (replicate 2 ticker_C) site_v1 w))).
  { vm_compute. exact eq_refl. }
  exact (syncRepos_alternates scripted 2 site_v1 _ w _ E).
Defined.

(** ** Rendering, once more *)

(** X12.  When the transform returns a non-nil slice for a fresh Document,
    it runs once: the first call returns its output and stores it, the
    second returns the stored bytes and changes nothing; path and contents
    of the Document are never touched. *)
Theorem Render_memoizes (markdown_Render : string -> option string)
        (d : document) (n : nat) (b : string) :
  cache d = None ->
  markdown_Render (contents d) = Some b ->
  let '(out1, d1, n1) := Render markdown_Render d n in
  let '(out2, d2, n2) := Render markdown_Render d1 n1 in
  out1 = Some b /\ out2 = Some b /\ n1 = S n /\ n2 = S n /\
  d2 = d1 /\ same_source d1 d /\ cache d1 = Some b.
Proof.
  intros Hc Hb. rewrite (Render_first _ _ _ Hc), Hb.
  rewrite (Render_cached _ (mkDocument (path d) (contents d) (Some b)) _ b eq_refl).
  repeat split.
Qed.

Lemma Render_memoizes_witness :
  let '(out1, d1, n1) := Render paragraph (mkDocument "a.md" "A" None) 0 in
  let '(out2, d2, n2) := Render paragraph d1 n1 in
  out1 = Some "<p>A</p>" /\ out2 = Some "<p>A</p>" /\ n1 = 1 /\ n2 = 1 /\
  d2 = d1 /\ same_source d1 (mkDocument "a.md" "A" None) /\
  cache d1 = Some "<p>A</p>".
Proof.
  exact (Render_memoizes paragraph (mkDocument "a.md" "A" None) 0 "<p>A</p>"
           eq_refl eq_refl).
Defined.

(** ** The HTTP surface *)

Section StoreFacts.

Lemma activeRepo_store (s : site) (pl : place) (d : document) :
  activeRepo (store s pl d) = activeRepo s.
Proof. unfold store. by destruct (activeRepo s). Qed.

Lemma inactive_store (s : site) (pl : place) (d : document) :
  inactive (store s pl d) = inactive s.
Proof. unfold store, inactive. by destruct (activeRepo s). Qed.

Lemma active_store (s : site) (pl : place) (d : document) :
  active (store s pl d) =
  match pl with
  | at_index =>
      {| hash := hash (active s); index := Some d;
         documents := documents (active s) |}
  | at_path p =>
      {| hash := hash (active s); index := index (active s);
         documents := <[p := d]> (documents (active s)) |}
  end.
Proof. unfold store, active. by destruct (activeRepo s). Qed.

(** Reading a place after a store gives the stored Document. *)
Lemma found_at_store (s : site) (pl : place) (d : document) :
  found_at (store s pl d) pl = Some d.
Proof.
  unfold found_at. rewrite active_store.
  destruct pl; simpl; [done|]. unfold Document. simpl. apply lookup_insert_eq.
Qed.

Lemma site_eq (s1 s2 : site) :
  activeRepo s1 = activeRepo s2 -> active s1 = active s2 ->
  inactive s1 = inactive s2 -> s1 = s2.
Proof.
  destruct s1 as [a1 rA1 rB1], s2 as [a2 rA2 rB2]. unfold active, inactive.
  simpl. intros ->. destruct a2; by intros -> ->.
Qed.

Lemma store_store (s : site) (pl : place) (d1 d2 : document) :
  store (store s pl d1) pl d2 = store s pl d2.
Proof.
  apply site_eq.
  - by rewrite !activeRepo_store.
  - rewrite !active_store. destruct pl; simpl; [done|].
    by rewrite insert_insert_eq.
  - by rewrite !inactive_store.
Qed.

End StoreFacts.

Section HTTPFacts.

Variable markdown_Render : string -> option string.
Variable title : string.
Variable tpl_Execute : string -> string -> result string.

(** A second [Render] returns what the first returned and leaves the
    Document as the first left it; it runs the transform only if the cache
    is still nil. *)
Lemma Render_again (doc : document) (n : nat) out d1 n1 :
  Render markdown_Render doc n = (out, d1, n1) ->
  Render markdown_Render d1 n1 =
  (out, d1, match cache d1 with Some _ => n1 | None => S n1 end)
  /\ same_source d1 doc.
Proof.
  unfold Render. intros H. destruct (cache doc) as [c|] eqn:Ec.
  - injection H as <- <- <-. by rewrite Ec.
  - destruct (markdown_Render (contents doc)) as [b|] eqn:Eb;
      injection H as <- <- <-; simpl; by rewrite ?Eb.
Qed.

Lemma serve_again (s : site) (pl : place) (doc : document) (n : nat)
      resp s1 n1 :
  serve markdown_Render title tpl_Execute s pl (Some doc) n = (resp, s1, n1) ->
  exists d1,
    found_at s1 pl = Some d1 /\ same_source d1 doc /\ s1 = store s pl d1 /\
    serve markdown_Render title tpl_Execute s1 pl (Some d1) n1 =
    (resp, s1, match cache d1 with Some _ => n1 | None => S n1 end).
Proof.
  unfold serve, renderDocument. intros H.
  destruct (Render markdown_Render doc n) as [[out d1] m] eqn:ER.
  destruct (Render_again _ _ _ _ _ ER) as [ER2 Hsame].
  exists d1.
  destruct (tpl_Execute title (default "" out)) as [b|e] eqn:ET;
    injection H as <- <- <-;
    rewrite found_at_store, ER2, ET, store_store; done.
Qed.

End HTTPFacts.

(** X13.  A request that resolves to no Document is answered with an error
    and changes nothing: 404 ["not found"] for a path the active slot does
    not map, 500 ["internal server error"] for ["/"] when the active slot
    has no index document (the nil dereference is recovered). *)
Theorem ServeHTTP_missing (markdown_Render : string -> option string)
        (title : string) (tpl_Execute : string -> string -> result string)
        (s : site) (url_path : string) (n : nat) :
  resolve s url_path = None ->
  ServeHTTP markdown_Render title tpl_Execute s url_path n =
  (if String.eqb url_path "/"
   then http_Error "internal server error" StatusInternalServerError
   else http_Error "not found" StatusNotFound, s, n).
Proof.
  unfold resolve, ServeHTTP, serveIndex, serve.
  destruct (String.eqb url_path "/"); by intros ->.
Qed.

Lemma ServeHTTP_missing_witness :
  status (fst (fst (ServeHTTP paragraph "thoughts" (fun _ b => Ok b)
                      site_v1 "/notes/today.md" 0))) = 404 /\
  status (fst (fst (ServeHTTP paragraph "thoughts" (fun _ b => Ok b)
                      newSite "/" 0))) = 500.
Proof.
  split.
  - by rewrite (ServeHTTP_missing paragraph "thoughts" (fun _ b => Ok b)
                  site_v1 "/notes/today.md" 0 eq_refl).
  - by rewrite (ServeHTTP_missing paragraph "thoughts" (fun _ b => Ok b)
                  newSite "/" 0 eq_refl).
Defined.

(** X14.  Serving a request never changes what the site routes: the
    selector, the inactive slot and the active slot's fingerprint are what
    they were, and every request path resolves to a Document with the same
    path and contents as before (or still to none); only render caches
    change. *)
Theorem ServeHTTP_keeps_routing (markdown_Render : string -> option string)
        (title : string) (tpl_Execute : string -> string -> result string)
        (s : site) (url_path : string) (n : nat) :
  let s' := snd (fst (ServeHTTP markdown_Render title tpl_Execute s url_path n)) in
  activeRepo s' = activeRepo s /\ inactive s' = inactive s /\
  hash (active s') = hash (active s) /\
  forall other, option_Forall2 same_source (resolve s' other) (resolve s other).
Proof.
  assert (Hrefl : forall o : option document, option_Forall2 same_source o o)
    by (intros [d|]; by constructor).
  assert (Hstore : forall pl doc d1,
             found_at s pl = Some doc -> same_source d1 doc ->
             activeRepo (store s pl d1) = activeRepo s /\
             inactive (store s pl d1) = inactive s /\
             hash (active (store s pl d1)) = hash (active s) /\
             forall other,
               option_Forall2 same_source (resolve (store s pl d1) other)
                              (resolve s other)).
  { intros pl doc d1 Hf Hs.
    rewrite activeRepo_store, inactive_store, active_store.
    split; [done|]. split; [done|]. split; [by destruct pl|].
    intros other. unfold resolve. rewrite active_store.
    unfold found_at, Index, Document in *.
    destruct pl as [|p]; destruct (String.eqb other "/"); simpl; try done.
    - rewrite Hf. by constructor.
    - destruct (decide (p = strings.TrimPrefix other "/")) as [<-|Hne].
      + rewrite lookup_insert_eq, Hf. by constructor.
      + by rewrite lookup_insert_ne. }
  assert (Hserve : forall pl doc,
             found_at s pl = Some doc ->
             exists d1, same_source d1 doc /\
               snd (fst (serve markdown_Render title tpl_Execute s pl (Some doc) n))
               = store s pl d1).
  { intros pl doc Hf. unfold serve, renderDocument.
    destruct (Render markdown_Render doc n) as [[out d1] m] eqn:ER.
    destruct (Render_again _ _ _ _ _ _ ER) as [_ Hsame].
    exists d1. split; [done|]. by destruct (tpl_Execute title _). }
  intros s'. subst s'. unfold ServeHTTP, serveIndex.
  destruct (String.eqb url_path "/").
  - destruct (Index (active s)) as [doc|] eqn:Ei; [|by cbn [serve fst snd]].
    destruct (Hserve at_index doc Ei) as (d1 & Hs & ->). by eapply Hstore.
  - destruct (Document (active s) _) as [doc|] eqn:Ed; [|by cbn [fst snd]].
    destruct (Hserve (at_path _) doc Ed) as (d1 & Hs & ->). by eapply Hstore.
Qed.

(** X15.  Asking again gives the same answer: a second request for the same
    path returns the response of the first and leaves the site as the first
    left it; it runs the markdown transform at most once more, and not at
    all when the Document served now has a render cache. *)
Theorem ServeHTTP_again (markdown_Render : string -> option string)
        (title : string) (tpl_Execute : string -> string -> result string)
        (s s1 s2 : site) (url_path : string) (n n1 n2 : nat)
        (resp resp2 : response) :
  ServeHTTP markdown_Render title tpl_Execute s url_path n = (resp, s1, n1) ->
  ServeHTTP markdown_Render title tpl_Execute s1 url_path n1 = (resp2, s2, n2) ->
  resp2 = resp /\ s2 = s1 /\ (n2 = n1 \/ n2 = S n1) /\
  (forall d, resolve s1 url_path = Some d -> cache d <> None -> n2 = n1).
Proof.
  unfold ServeHTTP, serveIndex, resolve.
  destruct (String.eqb url_path "/").
  - destruct (Index (active s)) as [doc|] eqn:Ei.
    + intros H1. destruct (serve_again _ _ _ _ _ _ _ _ _ _ H1)
        as (d1 & Hf & _ & _ & H2).
      simpl in Hf. rewrite Hf, H2. intros H. injection H as <- <- <-.
      split; [done|]. split; [done|]. split; [destruct (cache d1); auto|].
      intros d Hd Hc. injection Hd as <-. by destruct (cache d1).
    + simpl. intros H. injection H as <- <- <-. rewrite Ei. simpl.
      intros H. injection H as <- <- <-. split; [done|]. split; [done|]. split; auto.
  - destruct (Document (active s) _) as [doc|] eqn:Ed.
    + intros H1. destruct (serve_again _ _ _ _ _ _ _ _ _ _ H1)
        as (d1 & Hf & _ & _ & H2).
      simpl in Hf. rewrite Hf, H2. intros H. injection H as <- <- <-.
      split; [done|]. split; [done|]. split; [destruct (cache d1); auto|].
      intros d Hd Hc. injection Hd as <-. by destruct (cache d1).
    + intros H. injection H as <- <- <-. rewrite Ed.
      intros H. injection H as <- <- <-. split; [done|]. split; [done|]. split; auto.
Qed.

Lemma ServeHTTP_again_witness :
  let first := ServeHTTP paragraph "thoughts" (fun _ b => Ok b)
                         site_v1 "/notes/today" 0 in
  let second := ServeHTTP paragraph "thoughts" (fun _ b => Ok b)
                          (snd (fst first)) "/notes/today" (snd first) in
  status (fst (fst first)) = 200 /\ snd first = 1 /\
  fst (fst second) = fst (fst first) /\ snd second = 1.
Proof.
  intros first second.
  assert (E1 : first = (fst (fst first), snd (fst first), snd first))
    by (vm_compute; exact eq_refl).
  assert (E2 : second = (fst (fst second), snd (fst second), snd second))
    by (vm_compute; exact eq_refl).
  destruct (ServeHTTP_again _ _ _ _ _ _ _ _ _ _ _ _ E1 E2) as (Hr & _ & _ & Hn).
  split; [vm_compute; reflexivity|]. split; [vm_compute; reflexivity|].
  split; [exact Hr|].
  rewrite (Hn (mkDocument "notes/today.md" "See [link](./other)"
                 (Some "<p>See [link](./other)</p>")));
    [vm_compute; reflexivity|vm_compute; reflexivity|discriminate].
Defined.

(** ** [newGitHubClient] *)

(** X16.  [newGitHubClient] accepts a repository URL exactly when the path
    of the parsed URL has three segments, [first/owner/name]; it takes the
    second and third as owner and name and ignores the first (the host of
    a URL without scheme, or empty), so a trailing slash or a longer path
    is refused, while an empty owner or name is not. *)
Theorem newGitHubClient_accepts (url_Parse : string -> result string)
        (api repoURL : string) (c : githubClient) :
  newGitHubClient url_Parse api repoURL = Ok c <->
  exists first,
    url_Parse repoURL = Ok (first +:+ "/" +:+ owner c +:+ "/" +:+ name c) /\
    occurs "/" first = false /\ occurs "/" (owner c) = false /\
    occurs "/" (name c) = false /\ apiURL c = api.
Proof.
  unfold newGitHubClient. split.
  - destruct (url_Parse repoURL) as [u_Path|e] eqn:EP; [|done].
    pose proof (Join_Split u_Path "/") as HJ.
    pose proof (Split_pieces_free u_Path "/") as HF.
    destruct (strings.Split u_Path "/") as [|a [|b [|c' [|? ?]]]]; try done.
    simpl. intros H. injection H as <-. simpl.
    exists a. inversion HF as [|? ? Ha HF1]; subst.
    inversion HF1 as [|? ? Hb HF2]; subst.
    inversion HF2 as [|? ? Hc _]; subst.
    split; [done|done].
  - intros (first & -> & Hf & Ho & Hn & Ha).
    change (first +:+ "/" +:+ owner c +:+ "/" +:+ name c)
      with (first +:+ String "/" (owner c +:+ String "/" (name c))).
    rewrite (Split_first _ _ _ Hf), (Split_first _ _ _ Ho), (Split_free _ _ Hn).
    simpl. destruct c as [a o n']. simpl in *. by subst.
Qed.

(** ** What link rewriting can change *)

Section MatchFacts.

Import regexp.
Local Arguments String.append !s1 s2 / : simpl nomatch.

(** What a repetition consumed lies in front of the place where the
    continuation succeeded. *)
Lemma more_inv {R : Type} (k : class) (lazy : bool) (s : string)
      (cont : string -> option R) (r : R) :
  more k lazy s cont = Some r ->
  exists a b, s = a +:+ b /\ cont b = Some r.
Proof.
  revert r. induction s as [|x s IH]; intros r H.
  - exists "", "". split; [done|]. simpl in H. by destruct lazy, (cont "").
  - cbn [more] in H.
    assert (Hagain :
              (if accepts k x then more k lazy s cont else None) = Some r ->
              exists a b, String x s = a +:+ b /\ cont b = Some r).
    { destruct (accepts k x); [|done]. intros Hm.
      destruct (IH _ Hm) as (a & b & -> & Hb). by exists (String x a), b. }
    destruct lazy; unfold orelse in H.
    + destruct (cont (String x s)) as [r'|] eqn:Ec; [|by apply Hagain].
      injection H as <-. by exists "", (String x s).
    + destruct (if accepts k x then more k false s cont else None) as [r'|] eqn:Em.
      * injection H as <-. by apply Hagain.
      * by exists "", (String x s).
Qed.

(** Every match of [linkRE] ends in [".md)"], and its two groups are what
    stands in front of that and the closing parenthesis. *)
Lemma linkRE_match_inv (s rest : string) (caps : list string) :
  match_at linkRE s = Some (rest, caps) ->
  exists g1, s = g1 +:+ ".md)" +:+ rest /\ caps = [g1; ")"].
Proof.
  unfold match_at, linkRE. simpl.
  destruct s as [|c0 s]; [done|].
  destruct (Ascii.eqb_spec c0 "[") as [->|]; [|done].
  destruct s as [|x s]; [done|].
  destruct (negb (x =? "]")%char); [|done].
  intros H. apply more_inv in H as (a & b & -> & H).
  destruct b as [|c1 b]; [done|].
  destruct (Ascii.eqb_spec c1 "]") as [->|]; [|done].
  destruct b as [|c2 b]; [done|].
  destruct (Ascii.eqb_spec c2 "(") as [->|]; [|done].
  destruct b as [|c3 b]; [done|].
  destruct (Ascii.eqb_spec c3 ".") as [->|]; [|done].
  destruct b as [|c4 b]; [done|].
  destruct (Ascii.eqb_spec c4 "/") as [->|]; [|done].
  destruct b as [|y b]; [done|].
  destruct (negb (y =? ")")%char); [|done].
  apply more_inv in H as (a2 & b2 & -> & H).
  destruct b2 as [|d1 b2]; [done|].
  destruct (Ascii.eqb_spec d1 ".") as [->|]; [|done].
  destruct b2 as [|d2 b2]; [done|].
  destruct (Ascii.eqb_spec d2 "m") as [->|]; [|done].
  destruct b2 as [|d3 b2]; [done|].
  destruct (Ascii.eqb_spec d3 "d") as [->|]; [|done].
  destruct b2 as [|d4 b2]; [done|].
  destruct (Ascii.eqb_spec d4 ")") as [->|]; [|done].
  injection H as <- <-.
  exists (String "[" (String x (a +:+ "](./" +:+ String y a2))).
  split; [string_assoc|].
  f_equal; [|f_equal; exact (consumed_append ")" b2)].
  etrans; [|apply (consumed_append _ (".md)" +:+ b2))].
  f_equal. string_assoc.
Qed.

End MatchFacts.

Section DropsFacts.

Import regexp.
Local Arguments String.append !s1 s2 / : simpl nomatch.

Lemma drops_md_prefix (g a b : string) :
  drops_md a b -> drops_md (g +:+ a) (g +:+ b).
Proof. intros H. induction g as [|x g IH]; simpl; [done|by constructor]. Qed.

Lemma strip_links_drops_bounded (n : nat) :
  forall s, String.length s <= n -> drops_md s (strip_links s).
Proof.
  unfold strip_links, ReplaceAllString.
  induction n as [|n IH]; intros s Hlen.
  - destruct s; [|simpl in Hlen; lia]. vm_compute. constructor.
  - destruct s as [|c s]; [vm_compute; constructor|].
    destruct (match_at linkRE (String c s)) as [[rest caps]|] eqn:Em.
    + destruct (linkRE_match_inv _ _ _ Em) as (g1 & Hs & ->).
      rewrite Hs in Em |- *.
      replace (g1 +:+ ".md)" +:+ rest) with ((g1 +:+ ".md)") +:+ rest) in Em |- *
        by string_assoc.
      assert (Hm : g1 +:+ ".md)" <> "") by (destruct g1; simpl; discriminate).
      rewrite (replace_from_match _ _ _ _ _ Hm Em).
      unfold expand. cbn [foldr lookup list_lookup default Nat.sub id from_option].
      replace ((g1 +:+ ")" +:+ "") +:+ replace_from linkRE [Group 1; Group 2] rest 0)
        with (g1 +:+ String ")" (replace_from linkRE [Group 1; Group 2] rest 0))
        by string_assoc.
      replace ((g1 +:+ ".md)") +:+ rest)
        with (g1 +:+ String "." (String "m" (String "d" (String ")" rest))))
        by string_assoc.
      apply drops_md_prefix. constructor. constructor. apply IH.
      apply (f_equal String.length) in Hs. rewrite !length_append in Hs.
      simpl in *. lia.
    + rewrite replace_from_cons, Em. constructor. apply IH. simpl in Hlen. lia.
Qed.

Lemma drops_md_length (s s' : string) :
  drops_md s s' -> String.length s' <= String.length s.
Proof. induction 1; simpl in *; lia. Qed.

Lemma drops_md_unchanged (s s' : string) :
  drops_md s s' ->
  (forall a b, s <> a +:+ ".md)" +:+ b) -> s' = s.
Proof.
  induction 1 as [|c s s' H IH|s s' H IH]; intros Hno.
  - done.
  - f_equal. apply IH. intros a b ->. by apply (Hno (String c a) b).
  - exfalso. by apply (Hno "" s).
Qed.

End DropsFacts.

(** X17.  [newDocument] changes the contents of a file in one way only: it
    deletes occurrences of [".md"] that stand directly in front of a closing
    parenthesis.  Every other byte is kept, in order; the contents never
    grow; the path is taken as given and the render cache starts nil. *)
Theorem newDocument_only_drops_md (p src : string) :
  exists d,
    newDocument p src = Ok d /\ path d = p /\ cache d = None /\
    drops_md src (contents d) /\
    String.length (contents d) <= String.length src.
Proof.
  eexists. split; [reflexivity|]. simpl.
  pose proof (strip_links_drops_bounded _ src (le_n _)) as H.
  repeat split; [exact H|]. by apply drops_md_length.
Qed.

(** X18.  A file in which [".md)"] does not occur is stored unchanged. *)
Theorem newDocument_unchanged (p src : string) :
  (forall a b, src <> a +:+ ".md)" +:+ b) ->
  newDocument p src = Ok {| path := p; contents := src; cache := None |}.
Proof.
  intros Hno. unfold newDocument. do 2 f_equal.
  apply drops_md_unchanged; [|done].
  apply (strip_links_drops_bounded _ src (le_n _)).
Qed.

Lemma newDocument_unchanged_witness :
  newDocument "a.md" "Hello [x](./y)" =
  Ok {| path := "a.md"; contents := "Hello [x](./y)"; cache := None |}.
Proof.
  apply newDocument_unchanged. intros a b H.
  repeat (destruct a as [|? a]; [discriminate H|]; injection H as _ H).
  destruct a; discriminate H.
Defined.

(** ** The caching decorator, once more *)

Section WalkKeeps.

Import os.

(** A walk whose callback never removes a path from the disk removes
    none. *)
Lemma walkDir_keeps_paths
      (fn : string -> entry -> option error -> gmap string node ->
            option error * gmap string node) (k : string) :
  (forall p e err d, is_Some (d !! k) -> is_Some (snd (fn p e err d) !! k)) ->
  forall t name d,
    is_Some (d !! k) -> is_Some (snd (walkDir fn name t d) !! k).
Proof.
  intros Hfn t.
  induction t as [n data|n err|n dirs IH] using entry_induction;
    intros name d Hk.
  - simpl. pose proof (Hfn name (File n data) None d Hk) as H1.
    by destruct (fn name (File n data) None d) as [[e|] d1].
  - simpl. pose proof (Hfn name (Dir n (Fail err)) None d Hk) as H1.
    destruct (fn name (Dir n (Fail err)) None d) as [[e|] d1]; [done|].
    by apply Hfn.
  - simpl. pose proof (Hfn name (Dir n (Ok dirs)) None d Hk) as H1.
    destruct (fn name (Dir n (Ok dirs)) None d) as [[e|] d1]; [done|].
    simpl in H1. clear d Hk. revert d1 H1.
    induction dirs as [|d1 dirs IHdirs]; intros st Hst; [done|].
    inversion IH as [|? ? IH1 IH2]; subst.
    pose proof (IH1 (path_Join name (Name d1)) st Hst) as H2.
    destruct (walkDir fn (path_Join name (Name d1)) d1 st) as [[e|] st2];
      [done|]. by apply IHdirs.
Qed.

Lemma MkdirAll_rev_keeps_paths (rsegs : list string) :
  forall (d : gmap string node) k,
    is_Some (d !! k) -> is_Some (snd (osfs.MkdirAll_rev rsegs d) !! k).
Proof.
  induction rsegs as [|seg parent IH]; intros d k Hk.
  - simpl. by destruct (d !! "") as [[|?]|].
  - change (osfs.MkdirAll_rev (seg :: parent) d) with
      (match d !! strings.Join (rev (seg :: parent)) filepath.sep with
       | Some DirNode => (None, d)
       | Some (FileNode _) => (Some ENOTDIR, d)
       | None =>
           let '(err, d) :=
             match strings.Join (rev parent) filepath.sep with
             | EmptyString => (None, d)
             | _ => osfs.MkdirAll_rev parent d
             end in
           match err with
           | Some err => (Some err, d)
           | None =>
               (None, <[strings.Join (rev (seg :: parent)) filepath.sep := DirNode]> d)
           end
       end).
    destruct (d !! strings.Join (rev (seg :: parent)) filepath.sep)
      as [[|?]|]; [done|done|].
    assert (Hins : forall d2 : gmap string node,
               is_Some (d2 !! k) ->
               is_Some (<[strings.Join (rev (seg :: parent)) filepath.sep := DirNode]> d2 !! k)).
    { intros d2 H2. rewrite lookup_insert. case_decide; [eauto|done]. }
    destruct (strings.Join (rev parent) filepath.sep).
    + by apply Hins.
    + specialize (IH d k Hk).
      destruct (osfs.MkdirAll_rev parent d) as [[e|] d2]; [done|].
      by apply Hins.
Qed.

End WalkKeeps.

Section CachedMore.

Import os.
Context {W : Type}.
Variable client : fileProvider W.
Variable c : cachedGitHubClient.

Lemma persist_fn_keeps_paths (k : string) p e err (d : gmap string node) :
  is_Some (d !! k) -> is_Some (snd (persist_fn c p e err d) !! k).
Proof.
  intros Hk. unfold persist_fn. destruct err as [err|]; [done|].
  destruct (IsDir e).
  - pose proof (MkdirAll_rev_keeps_paths
                  (rev (strings.Split (filepath.Join (destRoot c) p) "/")) d k Hk) as H.
    unfold osfs.MkdirAll.
    by destruct (osfs.MkdirAll_rev _ d) as [[?|] d1].
  - pose proof (MkdirAll_rev_keeps_paths
                  (rev (strings.Split (filepath.Dir (filepath.Join (destRoot c) p)) "/"))
                  d k Hk) as H.
    unfold osfs.MkdirAll.
    destruct (osfs.MkdirAll_rev _ d) as [[?|] d1]; [done|]. simpl in H.
    destruct (ReadFile e) as [data|?]; [|done].
    unfold osfs.Create, osfs.Copy.
    destruct (d1 !! filepath.Join (destRoot c) p) as [[|?]|];
      destruct (d1 !! filepath.Dir (filepath.Join (destRoot c) p)) as [[|?]|];
      simpl; try done;
      rewrite !lookup_insert; repeat case_decide; eauto.
Qed.

End CachedMore.

(** X19.  The decorator never removes anything from the disk: every path
    that exists before [LastHash] or [Contents] exists afterwards, whether
    the call succeeds or fails; [LastHash] leaves the disk as it is. *)
Theorem cached_keeps_disk {W : Type} (client : fileProvider W)
        (c : cachedGitHubClient) (d : gmap string os.node) (n : W) (k : string) :
  is_Some (d !! k) ->
  is_Some (fst (snd (Contents (cached client c) (d, n))) !! k) /\
  fst (snd (LastHash (cached client c) (d, n))) = d.
Proof.
  intros Hk. simpl. unfold cached_Contents, cached_LastHash. simpl. split.
  - destruct (cacheExists c d); [done|].
    destruct (Contents client n) as [[[t cl]|e] n1]; [|done].
    unfold WalkDir.
    pose proof (walkDir_keeps_paths (persist_fn c) k
                  (persist_fn_keeps_paths c k) t "." d Hk) as H.
    by destruct (walkDir (persist_fn c) "." t d) as [[e|] d1].
  - destruct (cacheExists c d); [done|].
    by destruct (LastHash client n) as [[h|e] n1].
Qed.

Lemma cached_keeps_disk_witness :
  let d : gmap string os.node := {[ "/srv/notes.txt" := os.FileNode "mine" ]} in
  is_Some (fst (snd (Contents (cached scripted (newCachedGitHubClient "/srv"))
                       (d, play [] [Ok tree_v1]))) !! "/srv/notes.txt").
Proof.
  intros d.
  refine (proj1 (cached_keeps_disk scripted (newCachedGitHubClient "/srv") d
                   (play [] [Ok tree_v1]) "/srv/notes.txt" _)).
  vm_compute. eauto.
Defined.

(** X20.  Once the walk has created the cache directory, the cache counts
    as present, however the walk ends: if [Contents] is delegated, the
    client returns a tree with a directory at its root and [MkdirAll] of
    the cache directory succeeds, then after the call (successful or not)
    [LastHash] answers ["cached-hash"] without calling the client. *)
Theorem cached_Contents_leaves_cache {W : Type} (client : fileProvider W)
        (c : cachedGitHubClient) (d : gmap string os.node) (n n1 m : W)
        (root : string) (listing : result (list entry)) (cleanup : W -> W) :
  d !! destRoot c = None ->
  Contents client n = (Ok (Dir root listing, cleanup), n1) ->
  fst (osfs.MkdirAll d (destRoot c)) = None ->
  let d' := fst (snd (Contents (cached client c) (d, n))) in
  LastHash (cached client c) (d', m) = (Ok "cached-hash", (d', m)).
Proof.
  intros Habs HC Hmk d'.
  assert (Hex : is_Some (d' !! destRoot c)).
  { unfold d'. simpl. unfold cached_Contents. simpl.
    rewrite (cacheExists_absent c d Habs), HC. unfold WalkDir.
    destruct (osfs.MkdirAll d (destRoot c)) as [e d1] eqn:Em.
    simpl in Hmk. subst e.
    pose proof (MkdirAll_makes_dir _ _ _ Em) as Hd1.
    assert (Hstep : persist_fn c "." (Dir root listing) None d = (None, d1)).
    { unfold persist_fn. simpl.
      change (filepath.Join (destRoot c) ".") with (destRoot c).
      by rewrite Em. }
    assert (Hrest : is_Some
              (snd (match listing with
                    | Ok dirs =>
                        (fix range (dirs : list entry) (st : gmap string os.node)
                           {struct dirs} : option error * gmap string os.node :=
                           match dirs with
                           | [] => (None, st)
                           | d1 :: dirs' =>
                               match walkDir (persist_fn c)
                                       (path_Join "." (Name d1)) d1 st with
                               | (Some err, st') => (Some err, st')
                               | (None, st') => range dirs' st'
                               end
                           end) dirs d1
                    | Fail err => persist_fn c "." (Dir root listing) (Some err) d1
                    end) !! destRoot c)).
    { destruct listing as [dirs|err]; [|simpl; rewrite Hd1; eauto].
      assert (H0 : is_Some (d1 !! destRoot c)) by (rewrite Hd1; eauto).
      clear Hd1 Hstep Em HC. revert d1 H0.
      induction dirs as [|e dirs IH]; intros st Hst; [done|].
      pose proof (walkDir_keeps_paths (persist_fn c) (destRoot c)
                    (persist_fn_keeps_paths c (destRoot c)) e
                    (path_Join "." (Name e)) st Hst) as H2.
      destruct (walkDir (persist_fn c) (path_Join "." (Name e)) e st)
        as [[err|] st2]; [done|]. by apply IH. }
    cbn [walkDir]. rewrite Hstep.
    destruct listing as [dirs|err].
    - by destruct ((fix range (dirs0 : list entry) (st : gmap string os.node)
                      {struct dirs0} : option error * gmap string os.node := _) dirs d1)
        as [[e|] d2].
    - simpl in *. done. }
  simpl. unfold cached_LastHash. simpl.
  by rewrite (cacheExists_present c d' Hex).
Qed.

Lemma cached_Contents_leaves_cache_witness :
  let c := newCachedGitHubClient "/srv" in
  let first := Contents (cached scripted c) (∅, play [] [Ok tree_unreadable]) in
  let d' := fst (snd first) in
  (exists err, fst first = Fail err) /\
  LastHash (cached scripted c) (d', play [Ok "c1"] []) =
  (Ok "cached-hash", (d', play [Ok "c1"] [])).
Proof.
  intros c first d'. split.
  - vm_compute. eauto.
  - refine (cached_Contents_leaves_cache scripted c ∅
              (play [] [Ok tree_unreadable]) _ (play [Ok "c1"] [])
              "." _ _ (lookup_empty _) eq_refl _).
    vm_compute. reflexivity.
Defined.

(** X22.  With the cache directory on the disk, a [Sync] through the
    decorator works offline: whatever it returns, the disk and the state of
    the wrapped client are what they were. *)
Theorem Sync_cached_offline {W : Type} (client : fileProvider W)
        (c : cachedGitHubClient) (r : repo) (d : gmap string os.node) (n : W) :
  is_Some (d !! destRoot c) ->
  snd (Sync (cached client c) r (d, n)) = (d, n).
Proof.
  intros Hex.
  assert (HL : LastHash (cached client c) (d, n) = (Ok "cached-hash", (d, n))).
  { simpl. unfold cached_LastHash. simpl. by rewrite (cacheExists_present c d Hex). }
  assert (HC : Contents (cached client c) (d, n) =
               (Ok (osfs.Sub_DirFS d (filepath.Dir (destRoot c)) cacheDir,
                    fun w => w), (d, n))).
  { simpl. unfold cached_Contents. simpl. by rewrite (cacheExists_present c d Hex). }
  unfold Sync. rewrite HL.
  destruct (String.eqb "cached-hash" (hash r)); [done|]. rewrite HC.
  destruct (extractDocuments _) as [docs|e]; [|done].
  by destruct (indexDocuments r docs).
Qed.

Lemma Sync_cached_offline_witness :
  let d : gmap string os.node :=
    {[ "/srv/cache" := os.DirNode;
       "/srv/cache/w" := os.DirNode;
       "/srv/cache/w/README.md" := os.FileNode "Hello" ]} in
  let run := Sync (cached scripted (newCachedGitHubClient "/srv")) newRepo
                  (d, play [Ok "c1"] [Ok tree_v1]) in
  snd run = (d, play [Ok "c1"] [Ok tree_v1]) /\
  index (snd (fst run)) = Some (mkDocument "README.md" "Hello" None).
Proof.
  intros d run. split.
  - refine (Sync_cached_offline scripted (newCachedGitHubClient "/srv") newRepo d
              (play [Ok "c1"] [Ok tree_v1]) _).
    vm_compute. eauto.
  - vm_compute. reflexivity.
Defined.

(** ** Startup and found Documents *)

(** X23.  After a successful start of a new site, slot A is active; and
    unless the source reported the empty fingerprint, the site has an index
    document to serve at ["/"]. *)
Theorem Serve_start_has_index {W : Type} (fp : fileProvider W)
        (w w' : W) (s' : site) :
  Serve_start fp newSite w = (None, s', w') ->
  fst (LastHash fp w) <> Ok "" ->
  activeRepo s' = versionA_ptr /\ is_Some (resolve s' "/").
Proof.
  unfold Serve_start. change (active newSite) with newRepo. intros H Hne.
  destruct (Sync fp newRepo w) as [[[e|] r] w1] eqn:ES; [done|].
  simpl in H. injection H as <- <-. split; [done|].
  destruct (Sync_inv fp _ _ _ _ _ ES) as
    [e HL He Hr|h HL Hq He Hr|h w1' e HL Hn HC He Hr
    |h w1' t cl w2 e HL Hn HC HX Hw He Hr|h w1' t cl w2 docs HL Hn HC HX Hw HI];
    try discriminate.
  - exfalso. apply Hne. rewrite HL. simpl. by rewrite Hq.
  - destruct (indexDocuments_inv _ _ _ _ HI) as [_ [[_ Hi]|[? _]]]; [|done].
    unfold resolve, active, Index. simpl. by destruct (index r).
Qed.

Lemma Serve_start_has_index_witness :
  is_Some (resolve site_v1 "/").
Proof.
  refine (proj2 (Serve_start_has_index scripted (play [Ok "c1"] [Ok tree_v1])
                   (snd (Serve_start scripted newSite (play [Ok "c1"] [Ok tree_v1])))
                   site_v1 _ _)).
  - vm_compute. exact eq_refl.
  - discriminate.
Defined.

(** X24.  A request that resolves to a Document is answered from its render
    cache when it has one, without looking at the contents, and otherwise
    with the transform of its contents; the answer is 200 with the template
    applied to those bytes, or 500 when the template fails. *)
Theorem ServeHTTP_found (markdown_Render : string -> option string)
        (title : string) (tpl_Execute : string -> string -> result string)
        (s : site) (url_path : string) (n : nat) (d : document) :
  resolve s url_path = Some d ->
  fst (fst (ServeHTTP markdown_Render title tpl_Execute s url_path n)) =
  match tpl_Execute title
          (default "" (match cache d with
                       | Some c => Some c
                       | None => markdown_Render (contents d)
                       end)) with
  | Ok b => {| status := StatusOK;
               header := [("Content-Type", "text/html")];
               body := b |}
  | Fail _ => http_Error "internal server error" StatusInternalServerError
  end.
Proof.
  unfold resolve, ServeHTTP, serveIndex.
  assert (Hserve : forall pl,
             fst (fst (serve markdown_Render title tpl_Execute s pl (Some d) n)) =
             match tpl_Execute title
                     (default "" (match cache d with
                                  | Some c => Some c
                                  | None => markdown_Render (contents d)
                                  end)) with
             | Ok b => {| status := StatusOK;
                          header := [("Content-Type", "text/html")];
                          body := b |}
             | Fail _ => http_Error "internal server error" StatusInternalServerError
             end).
  { intros pl. unfold serve, renderDocument, Render.
    destruct (cache d) as [c|]; simpl; by destruct (tpl_Execute title _). }
  destruct (String.eqb url_path "/"); intros ->; apply Hserve.
Qed.

Lemma ServeHTTP_found_witness :
  fst (fst (ServeHTTP paragraph "thoughts" (fun _ b => Ok b) site_v1 "/" 0)) =
  {| status := 200; header := [("Content-Type", "text/html")];
     body := "<p>Hello</p>" |}.
Proof.
  exact (ServeHTTP_found paragraph "thoughts" (fun _ b => Ok b) site_v1 "/" 0
           (mkDocument "README.md" "Hello" None) eq_refl).
Defined.
